(** * glfs-cat: reading a file of a Gluster volume to standard output

    A shallow embedding of [src/glfs-cat.c] and the properties of its
    command driver ([do_cat]), option parser ([parse_options]) and locked
    reader ([gluster_get]).

    The program talks to three collaborators whose code is not part of
    [glfs-cat.c]:
    - the C library ([getopt_long], [error], [printf]);
    - the GlusterFS client library ([glfs_open], [glfs_close], [glfs_fini],
      [glfs_set_logging]);
    - the helpers of [glfs-util.c] ([strtoport], [parse_xlator_option],
      [append_xlator_option], [apply_xlator_options], [gluster_parse_url],
      [gluster_getfs], [gluster_lock], [gluster_read], [gluster_url_init]).

    Calls that reach the outside world are recorded as [event]s; what the
    outside world answers is fixed by an [env]ironment, which is also where
    failures are injected.  Memory allocation ([malloc], [strdup]) is taken
    to succeed, and the messages that [getopt_long] prints by itself are
    left out. *)

From Equations Require Import Equations.
From Stdlib Require Import String Ascii List ZArith Lia Bool Arith.
From Stdlib.Strings Require Import Byte.
Import ListNotations.

Local Open Scope string_scope.
Local Open Scope list_scope.
Local Open Scope Z_scope.

(** ** Strings *)

Module Str.

(** [strchr]-style split: the text before and after the first [c]. *)
Fixpoint split_at (c : ascii) (s : string) : option (string * string) :=
  match s with
  | EmptyString => None
  | String x rest =>
      if Ascii.eqb x c then Some (EmptyString, rest)
      else match split_at c rest with
           | Some (l, r) => Some (String x l, r)
           | None => None
           end
  end.

Fixpoint contains (c : ascii) (s : string) : bool :=
  match s with
  | EmptyString => false
  | String x rest => Ascii.eqb x c || contains c rest
  end.

Definition is_digit (c : ascii) : bool :=
  let n := nat_of_ascii c in (48 <=? n)%nat && (n <=? 57)%nat.

Fixpoint all_digits (s : string) : bool :=
  match s with
  | EmptyString => true
  | String x rest => is_digit x && all_digits rest
  end.

(** Value of a string of decimal digits, most significant first. *)
Fixpoint decimal (acc : Z) (s : string) : Z :=
  match s with
  | EmptyString => acc
  | String x rest => decimal (10 * acc + (Z.of_nat (nat_of_ascii x) - 48)) rest
  end.

End Str.

(** ** [getopt_long]

    GNU [getopt_long] as [parse_options] uses it: [optind] is reset to 0
    before the first call, so the scan starts afresh at [argv[1]]; the
    ordering is the default one (non-options are skipped and moved behind
    the options); every entry of [long_options] has a [NULL] flag, so a
    matched long option returns its [val]. *)

Module Getopt.

Inductive has_arg_t := no_argument | required_argument.

(** [struct option] without its [flag] field. *)
Record option_t := { name : string; has_arg : has_arg_t; val : ascii }.

(** One return of [getopt_long]: the returned character, [optarg], and
    the index stored through [longind] (only a matched long option
    stores one). *)
Record ret_t := { opt : ascii; optarg : option string; longind : option nat }.

Definition unknown : ret_t :=
  {| opt := "?"%char; optarg := None; longind := None |}.

Definition short (c : ascii) (arg : option string) : ret_t :=
  {| opt := c; optarg := arg; longind := None |}.

Section Scan.

Variable optstring : string.
Variable longopts : list option_t.

(** [strchr (optstring, c)] and the test for a following colon. *)
Fixpoint short_lookup (os : string) (c : ascii) : option has_arg_t :=
  match os with
  | EmptyString => None
  | String x rest =>
      if Ascii.eqb x c
      then Some (match rest with
                 | String ":" _ => required_argument
                 | _ => no_argument
                 end)
      else short_lookup rest c
  end.

Definition short_option (c : ascii) : option has_arg_t :=
  if Ascii.eqb c ":" || Ascii.eqb c ";" then None else short_lookup optstring c.

(** The returns for the characters of one element [-cl].  The second
    component is [Some c] when the last character [c] takes an argument
    that has to come from the next element of [argv]. *)
Fixpoint short_cluster (cl : string) : list ret_t * option ascii :=
  match cl with
  | EmptyString => ([], None)
  | String c rest =>
      match short_option c with
      | None =>
          let '(rs, pending) := short_cluster rest in (unknown :: rs, pending)
      | Some no_argument =>
          let '(rs, pending) := short_cluster rest in (short c None :: rs, pending)
      | Some required_argument =>
          match rest with
          | EmptyString => ([], Some c)
          | _ => ([short c (Some rest)], None)
          end
      end
  end.

(** Index and entry of the first option of the table that satisfies [p]. *)
Fixpoint find_index (p : option_t -> bool) (i : nat) (l : list option_t)
  : option (nat * option_t) :=
  match l with
  | [] => None
  | o :: l' => if p o then Some (i, o) else find_index p (S i) l'
  end.

Definition differs (a b : option_t) : bool :=
  negb (Ascii.eqb (val a) (val b))
  || match has_arg a, has_arg b with
     | no_argument, no_argument | required_argument, required_argument => false
     | _, _ => true
     end.

(** Long option lookup: an exact match wins; otherwise the name may
    abbreviate exactly one entry (several entries that do not differ
    count as one). *)
Definition long_lookup (nm : string) : option (nat * option_t) :=
  match find_index (fun o => String.eqb (name o) nm) 0 longopts with
  | Some r => Some r
  | None =>
      match find_index (fun o => String.prefix nm (name o)) 0 longopts with
      | None => None
      | Some (i, o) =>
          if existsb (fun o' => String.prefix nm (name o') && differs o o') longopts
          then None
          else Some (i, o)
      end
  end.

Inductive element :=
| EndOfOptions                (* exactly "--" *)
| LongOption (body : string)  (* "--body" *)
| ShortOptions (cl : string)  (* "-cl", cl not empty *)
| NonOption.

Definition classify (a : string) : element :=
  match a with
  | String "-" (String "-" EmptyString) => EndOfOptions
  | String "-" (String "-" body) => LongOption body
  | String "-" EmptyString => NonOption
  | String "-" cl => ShortOptions cl
  | _ => NonOption
  end.

(** A whole scan: the successive returns of [getopt_long] before it
    returns -1, and [argv[1..]] as the scan leaves it, option elements
    first and non-options after them. *)
Record scan_t := {
  returns : list ret_t;
  option_elements : list string;
  non_options : list string
}.

Definition consumed (rs : list ret_t) (elems : list string) (s : scan_t) : scan_t :=
  {| returns := rs ++ returns s;
     option_elements := elems ++ option_elements s;
     non_options := non_options s |}.

Definition skipped (a : string) (s : scan_t) : scan_t :=
  {| returns := returns s;
     option_elements := option_elements s;
     non_options := a :: non_options s |}.

Definition finished (elems rest : list string) : scan_t :=
  {| returns := []; option_elements := elems; non_options := rest |}.

Fixpoint scan (args : list string) : scan_t :=
  match args with
  | [] => finished [] []
  | a :: rest =>
      match classify a with
      | EndOfOptions => finished [a] rest
      | NonOption => skipped a (scan rest)
      | ShortOptions cl =>
          match short_cluster cl with
          | (rs, None) => consumed rs [a] (scan rest)
          | (rs, Some c) =>
              match rest with
              | [] => consumed (rs ++ [unknown]) [a] (finished [] [])
              | v :: rest' =>
                  consumed (rs ++ [short c (Some v)]) [a; v] (scan rest')
              end
          end
      | LongOption body =>
          let '(nm, value) :=
            match Str.split_at "=" body with
            | Some (n, v) => (n, Some v)
            | None => (body, None)
            end in
          match long_lookup nm with
          | None => consumed [unknown] [a] (scan rest)
          | Some (i, o) =>
              let found v := {| opt := val o; optarg := v; longind := Some i |} in
              match value, has_arg o with
              | Some v, required_argument => consumed [found (Some v)] [a] (scan rest)
              | Some _, no_argument => consumed [unknown] [a] (scan rest)
              | None, no_argument => consumed [found None] [a] (scan rest)
              | None, required_argument =>
                  match rest with
                  | [] => consumed [unknown] [a] (finished [] [])
                  | v :: rest' => consumed [found (Some v)] [a; v] (scan rest')
                  end
              end
          end
      end
  end.

(** The returns of [getopt_long] on [argv], in call order. *)
Definition getopt_long (argv : list string) : list ret_t :=
  returns (scan (tl argv)).

(** [argv] once [getopt_long] has returned -1. *)
Definition permuted (argv : list string) : list string :=
  match argv with
  | [] => []
  | a0 :: args => a0 :: option_elements (scan args) ++ non_options (scan args)
  end.

End Scan.

End Getopt.

(** ** The outside world *)

(** A session with a volume ([glfs_t *]). *)
Definition glfs_t := nat.

(** [struct gluster_url]: the connection target. *)
Record gluster_url := {
  host : string;
  path : string;
  volume : string;
  port : Z
}.

(** [struct xlator_option]: one translator option. *)
Record xlator_option := { key : string; value : string }.

(** What [do_cat] does to the outside world, in program order. *)
Inductive event :=
| call_gluster_getfs (u : gluster_url)
| call_apply_xlator_options (fs : glfs_t) (options : list xlator_option)
| call_glfs_set_logging (fs : glfs_t)
| call_glfs_fini (fs : glfs_t)
| call_glfs_open (fs : glfs_t) (filename : string)
| call_gluster_lock
| call_glfs_read (got : option (list byte))        (* [None]: the read failed *)
| call_write (buf : list byte) (accepted : nat)    (* on standard output *)
| call_glfs_close
| stderr_error (message : string)                  (* [error (0, errnum, ...)] *)
| stdout_usage
| stdout_version.

(** What [gluster_getfs] leaves behind: its return value is 0 in the first
    case and -1 in the second, where the session may or may not have been
    allocated before the failure. *)
Inductive getfs_t :=
| getfs_ok (fs : glfs_t)
| getfs_failed (fs : option glfs_t).

(** The answers of the outside world. *)
Record env := {
  getfs : gluster_url -> getfs_t;
  apply_options_fails : bool;
  set_logging_fails : bool;
  files : string -> option (list byte);   (* [None]: [glfs_open] fails *)
  lock_contended : bool;                  (* the exclusive lock cannot be taken *)
  read_fails : nat -> bool;               (* the i-th [glfs_read] fails *)
  short_write : nat -> option nat;        (* the i-th [write] takes at most that many bytes *)
  close_fails : bool
}.

(** ** Computations that leave a trace

    [None] stands for undefined behaviour of the C program (a [NULL]
    pointer followed, an index outside [argv]). *)

Definition io (A : Type) : Type := option (A * list event).

Definition ret {A} (a : A) : io A := Some (a, []).

Definition bind {A B} (m : io A) (k : A -> io B) : io B :=
  match m with
  | None => None
  | Some (a, t) =>
      match k a with
      | None => None
      | Some (b, t') => Some (b, t ++ t')
      end
  end.

Definition emit (e : event) : io unit := Some (tt, [e]).

Definition undefined {A} : io A := None.

Declare Scope io_scope.
Delimit Scope io_scope with io.
Notation "x <- m ;; k" := (bind m (fun x => k))
  (at level 61, m at next level, right associativity) : io_scope.
Notation "m ;; k" := (bind m (fun _ => k))
  (at level 61, right associativity) : io_scope.
Local Open Scope io_scope.

(** The bytes that reached standard output. *)
Fixpoint sink (t : list event) : list byte :=
  match t with
  | [] => []
  | call_write buf n :: t' => firstn n buf ++ sink t'
  | _ :: t' => sink t'
  end.

(** The chunks handed to [write]. *)
Fixpoint chunks (t : list event) : list (list byte) :=
  match t with
  | [] => []
  | call_write buf _ :: t' => buf :: chunks t'
  | _ :: t' => chunks t'
  end.

(** The number of bytes obtained from the file. *)
Fixpoint bytes_read (t : list event) : nat :=
  match t with
  | [] => 0%nat
  | call_glfs_read (Some got) :: t' => (length got + bytes_read t')%nat
  | _ :: t' => bytes_read t'
  end.

Definition is_close (e : event) : bool :=
  match e with call_glfs_close => true | _ => false end.

Definition is_fini (e : event) : bool :=
  match e with call_glfs_fini _ => true | _ => false end.

Definition is_getfs (e : event) : bool :=
  match e with call_gluster_getfs _ => true | _ => false end.

Definition is_read (e : event) : bool :=
  match e with call_glfs_read _ => true | _ => false end.

(** Calls on a file: open, lock, read, write to the sink, close. *)
Definition is_file_operation (e : event) : bool :=
  match e with
  | call_glfs_open _ _ | call_gluster_lock | call_glfs_read _
  | call_write _ _ | call_glfs_close => true
  | _ => false
  end.

(** Calls that set up, configure or tear down a session. *)
Definition is_session_operation (e : event) : bool :=
  match e with
  | call_gluster_getfs _ | call_apply_xlator_options _ _
  | call_glfs_set_logging _ | call_glfs_fini _ => true
  | _ => false
  end.

Definition count (p : event -> bool) (t : list event) : nat :=
  length (filter p t).

Definition never (p : event -> bool) (t : list event) : Prop :=
  Forall (fun e => p e = false) t.

(** ** The program state *)

(** [struct state]. *)
Record state := {
  st_gluster_url : option gluster_url;
  xlator_options : list xlator_option;
  url : option string;
  debug : bool
}.

(** [struct cli_context]; [argc] is the length of [argv]. *)
Record cli_context := {
  argv : list string;
  fs : option glfs_t;
  options_debug : bool
}.

Definition init_state : state :=
  {| st_gluster_url := None; xlator_options := []; url := None; debug := false |}.

Definition set_debug (st : state) (b : bool) : state :=
  {| st_gluster_url := st_gluster_url st; xlator_options := xlator_options st;
     url := url st; debug := b |}.

Definition set_xlator_options (st : state) (l : list xlator_option) : state :=
  {| st_gluster_url := st_gluster_url st; xlator_options := l;
     url := url st; debug := debug st |}.

Definition set_url (st : state) (u : string) : state :=
  {| st_gluster_url := st_gluster_url st; xlator_options := xlator_options st;
     url := Some u; debug := debug st |}.

Definition set_gluster_url (st : state) (g : gluster_url) : state :=
  {| st_gluster_url := Some g; xlator_options := xlator_options st;
     url := url st; debug := debug st |}.

Definition with_path (g : gluster_url) (p : string) : gluster_url :=
  {| host := host g; path := p; volume := volume g; port := port g |}.

Definition with_port (g : gluster_url) (p : Z) : gluster_url :=
  {| host := host g; path := path g; volume := volume g; port := p |}.

Definition long_options : list Getopt.option_t :=
  [ {| Getopt.name := "debug"; Getopt.has_arg := Getopt.no_argument; Getopt.val := "d" |};
    {| Getopt.name := "help"; Getopt.has_arg := Getopt.no_argument; Getopt.val := "x" |};
    {| Getopt.name := "port"; Getopt.has_arg := Getopt.required_argument; Getopt.val := "p" |};
    {| Getopt.name := "version"; Getopt.has_arg := Getopt.no_argument; Getopt.val := "v" |};
    {| Getopt.name := "xlator-option"; Getopt.has_arg := Getopt.required_argument;
       Getopt.val := "o" |} ].

Definition optstring : string := "dho:p:".

(** A [uint16_t] holds its value modulo 2^16. *)
Definition uint16 (z : Z) : Z := z mod 65536.

(** ** Helpers of glfs-util.c *)

(** Modelled from the spec: [strtoport] is defined in glfs-util.c, outside
    glfs-cat.c.  A port is a positive 16-bit value written in decimal;
    zero, a value above 65535 and any text that is not a number (a sign
    included) are invalid, and an invalid port yields 0. *)
Definition strtoport (s : string) : Z :=
  if Str.all_digits s && negb (String.eqb s "")
  then let n := Str.decimal 0 s in
       if (1 <=? n) && (n <=? 65535) then n else 0
  else 0.

(** Modelled from the spec: [parse_xlator_option] is defined in
    glfs-util.c, outside glfs-cat.c.  An option is [key=value]; it is malformed
    when it has no [=] or an empty key. *)
Definition parse_xlator_option (s : string) : option xlator_option :=
  match Str.split_at "=" s with
  | Some (k, v) => if String.eqb k "" then None else Some {| key := k; value := v |}
  | None => None
  end.

(** Modelled from the spec: [append_xlator_option] is defined in
    glfs-util.c, outside glfs-cat.c.  Options accumulate in the order received,
    duplicates included; the return value is 0. *)
Definition append_xlator_option (l : list xlator_option) (o : xlator_option)
  : Z * list xlator_option :=
  (0, l ++ [o]).

(** ** A sample volume

    One file, [/path], holding the ten digits.  The arguments say whether
    the lock is held by someone else and whether closing fails; every other
    call succeeds. *)

Definition digits : list byte := list_byte_of_string "0123456789".

Definition sample_target : gluster_url :=
  {| host := "host"; path := "/path"; volume := "vol"; port := 24007 |}.

Definition sample_state : state :=
  {| st_gluster_url := Some sample_target; xlator_options := [];
     url := Some "glfs://host/vol/path"; debug := false |}.

Definition sample (contended close_failure : bool) : env :=
  {| getfs := fun _ => getfs_ok 7%nat;
     apply_options_fails := false;
     set_logging_fails := false;
     files := fun f => if String.eqb f "/path" then Some digits else None;
     lock_contended := contended;
     read_fails := fun _ => false;
     short_write := fun _ => None;
     close_fails := close_failure |}.

Section Cat.

(** Constants of glfs-util.h: the port used when none is asked for, and
    the size of the buffer of the read loop.  Their values are left
    open. *)
Variable GLUSTER_DEFAULT_PORT : Z.
Variable BUFSIZE : nat.

Variable E : env.

(** Modelled from the spec: [gluster_url_init] is defined in glfs-util.c,
    outside glfs-cat.c.  A target with nothing filled in; the port is the
    default one. *)
Definition gluster_url_init : gluster_url :=
  {| host := ""; path := ""; volume := ""; port := GLUSTER_DEFAULT_PORT |}.

(** Modelled from the spec: [gluster_parse_url] is defined in glfs-util.c,
    outside glfs-cat.c.  An identifier is [scheme://host[:port]/volume/path];
    the path keeps its leading slash, the port defaults to the well-known
    one and must be valid when written.  [None] is the return value -1. *)
Definition gluster_parse_url (u : string) : option gluster_url :=
  match Str.split_at ":" u with
  | Some (scheme, String "/" (String "/" rest)) =>
      match Str.split_at "/" rest with
      | None => None
      | Some (authority, rest1) =>
          match Str.split_at "/" rest1 with
          | None => None
          | Some (vol, p) =>
              let target h n :=
                {| host := h; path := String "/" p; volume := vol; port := n |} in
              if String.eqb scheme "" || String.eqb vol "" then None
              else match Str.split_at ":" authority with
                   | None =>
                       if String.eqb authority "" then None
                       else Some (target authority GLUSTER_DEFAULT_PORT)
                   | Some (h, n) =>
                       if String.eqb h "" || (strtoport n =? 0) then None
                       else Some (target h (strtoport n))
                   end
          end
      end
  | _ => None
  end.

(** Modelled from the spec: [gluster_getfs] is defined in glfs-util.c,
    outside glfs-cat.c.  It establishes the session with the target; the
    pair is its return value and what it stored through [fs]. *)
Definition gluster_getfs (u : gluster_url) : io (Z * option glfs_t) :=
  emit (call_gluster_getfs u);;
  match getfs E u with
  | getfs_ok s => ret (0, Some s)
  | getfs_failed s => ret (-1, s)
  end.

(** Modelled from the spec: [apply_xlator_options] is defined in
    glfs-util.c, outside glfs-cat.c.  The options are applied once, in order;
    a failure is the return value -1. *)
Definition apply_xlator_options (s : glfs_t) (l : list xlator_option) : io Z :=
  emit (call_apply_xlator_options s l);;
  ret (if apply_options_fails E then -1 else 0).

Definition glfs_set_logging (s : glfs_t) : io Z :=
  emit (call_glfs_set_logging s);;
  ret (if set_logging_fails E then -1 else 0).

Definition glfs_fini (s : glfs_t) : io unit :=
  emit (call_glfs_fini s).

(** An open file ([glfs_fd_t *]): the bytes from the file offset on. *)
Definition glfs_fd_t := list byte.

Definition glfs_open (s : glfs_t) (filename : string) : io (option glfs_fd_t) :=
  emit (call_glfs_open s filename);;
  ret (files E filename).

Definition glfs_close (fd : glfs_fd_t) : io Z :=
  emit call_glfs_close;;
  ret (if close_fails E then -1 else 0).

(** Modelled from the spec: [gluster_lock] is defined in glfs-util.c,
    outside glfs-cat.c.  An exclusive lock on the whole file that does not
    wait: when it cannot be taken the return value is -1 at once. *)
Definition gluster_lock (fd : glfs_fd_t) : io Z :=
  emit call_gluster_lock;;
  ret (if lock_contended E then -1 else 0).

(** The bytes the i-th [write] takes of [buf]. *)
Definition accepted (i : nat) (buf : list byte) : nat :=
  match short_write E i with
  | Some m => Nat.min m (length buf)
  | None => length buf
  end.

(** A value together with the equation that names it, for the
    termination proof of the loop. *)
Definition inspect {A} (a : A) : {b : A | a = b} := exist _ a eq_refl.

(** Modelled from the spec: [gluster_read] is defined in glfs-util.c,
    outside glfs-cat.c.  The loop reads at most [BUFSIZE] bytes, stops with
    0 when the read returns no byte and with -1 when it fails, writes the
    chunk to the sink, and stops with -1 at once when the sink takes fewer
    bytes than offered.  [i] counts the iterations, [rest] is what is left
    of the file. *)
Equations? read_loop (i : nat) (rest : list byte) : Z * list event
  by wf (length rest) lt :=
  read_loop i rest with inspect (firstn BUFSIZE rest) := {
    | exist _ [] _ =>
        if read_fails E i then (-1, [call_glfs_read None])
        else (0, [call_glfs_read (Some [])])
    | exist _ (b :: bs) Hchunk =>
        if read_fails E i then (-1, [call_glfs_read None])
        else
          let chunk := b :: bs in
          let n := accepted i chunk in
          if (n <? length chunk)%nat
          then (-1, [call_glfs_read (Some chunk); call_write chunk n])
          else
            let '(r, t) := read_loop (S i) (skipn BUFSIZE rest) in
            (r, call_glfs_read (Some chunk) :: call_write chunk n :: t) }.
Proof.
  rewrite length_skipn.
  destruct BUFSIZE as [|c]; [discriminate Hchunk|].
  destruct rest as [|x rest]; [discriminate Hchunk|].
  simpl; lia.
Qed.

(** Modelled from the spec: [gluster_read] is defined in glfs-util.c,
    outside glfs-cat.c.  It runs the loop from the file offset on; the
    sink is standard output. *)
Definition gluster_read (fd : glfs_fd_t) : io Z :=
  Some (read_loop 0 fd).

(** ** glfs-cat.c *)

(** The text printed for [%s] with [state->url]. *)
Definition url_text (st : state) : string :=
  match url st with Some u => u | None => "(null)" end.

(** [gluster_get]: open, lock, stream, close. *)
Definition gluster_get (st : state) (s : glfs_t) (filename : string) : io Z :=
  fd <- glfs_open s filename;;
  match fd with
  | None =>
      emit (stderr_error (url_text st));;
      ret (-1)
  | Some fd =>
      r <- (l <- gluster_lock fd;;
            if l =? -1
            then emit (stderr_error (url_text st));; ret (-1)
            else
              rd <- gluster_read fd;;
              if rd =? -1
              then emit (stderr_error "write error");; ret (-1)
              else ret 0);;
      (* out: *)
      c <- glfs_close fd;;
      if c =? -1
      then match st_gluster_url st with
           | None => undefined
           | Some g =>
               emit (stderr_error ("cannot close file " ++ path g)%string);;
               ret (-1)
           end
      else ret r
  end.

Definition usage : io unit := emit stdout_usage.

(** How the option loop of [parse_options] is left. *)
Inductive loop_exit :=
| loop_break (port : Z) (option_index : Z) (st : state)  (* [getopt_long] returned -1 *)
| goto_out (r : Z) (st : state)
| goto_err (st : state).

(** The [while (true)] loop of [parse_options]; the head of [rs] is what
    the next call of [getopt_long] returns. *)
Fixpoint option_loop (rs : list Getopt.ret_t) (port option_index : Z) (st : state)
  : io loop_exit :=
  match rs with
  | [] => ret (loop_break port option_index st)
  | r :: rs' =>
      let opt := Getopt.opt r in
      let optarg := match Getopt.optarg r with Some a => a | None => "" end in
      let option_index :=
        match Getopt.longind r with Some i => Z.of_nat i | None => option_index end in
      if Ascii.eqb opt "d" then
        option_loop rs' port option_index (set_debug st true)
      else if Ascii.eqb opt "o" then
        match parse_xlator_option optarg with
        | None =>
            emit (stderr_error optarg);;
            ret (goto_err st)
        | Some option =>
            let '(a, l) := append_xlator_option (xlator_options st) option in
            if a =? -1
            then emit (stderr_error ("append_xlator_option: " ++ optarg)%string);;
                 ret (goto_err st)
            else option_loop rs' port option_index (set_xlator_options st l)
        end
      else if Ascii.eqb opt "p" then
        let port := strtoport optarg in
        if port =? 0 then ret (goto_out (-1) st)
        else option_loop rs' port option_index st
      else if Ascii.eqb opt "v" then
        emit stdout_version;;
        ret (goto_out (-2) st)
      else if Ascii.eqb opt "x" then
        usage;;
        ret (goto_out (-2) st)
      else ret (goto_err st)
  end.

(** The label [err] of [parse_options]; [ret] is -1 wherever the code
    jumps to it. *)
Definition err (st : state) : io (Z * state) :=
  emit (stderr_error "Try --help for more information.");;
  ret (-1, st).

(** [parse_options] after the loop: the operand, [argv[argc - 1]]. *)
Definition parse_operand (argv : list string) (has_connection : bool)
           (port option_index : Z) (st : state) : io (Z * state) :=
  let argc := Z.of_nat (length argv) in
  if argc - option_index <? 2
  then emit (stderr_error "missing operand");; err st
  else
    match nth_error (Getopt.permuted optstring long_options argv)
                    (Z.to_nat (argc - 1)) with
    | None => undefined
    | Some last =>
        let st := set_url st last in
        if has_connection
        then ret (0, set_gluster_url st (with_path gluster_url_init last))
        else
          match gluster_parse_url last with
          | None =>
              emit (stderr_error (url_text st));;
              err st
          | Some g => ret (0, set_gluster_url st (with_port g port))
          end
    end.

(** [parse_options]: the return value and the state it leaves. *)
Definition parse_options (argv : list string) (has_connection : bool) (st : state)
  : io (Z * state) :=
  x <- option_loop (Getopt.getopt_long optstring long_options argv)
                   (uint16 GLUSTER_DEFAULT_PORT) 0 st;;
  match x with
  | goto_out r st => ret (r, st)
  | goto_err st => err st
  | loop_break port option_index st =>
      parse_operand argv has_connection port option_index st
  end.

(** [cat_without_context]: a session of its own around [gluster_get]. *)
Definition cat_without_context (st : state) : io Z :=
  match st_gluster_url st with
  | None => undefined
  | Some g =>
      x <- gluster_getfs g;;
      let '(r, s) := x in
      r <- (if r =? -1
            then emit (stderr_error (url_text st));; ret (-1)
            else
              match s with
              | None => undefined
              | Some s' =>
                  a <- apply_xlator_options s' (xlator_options st);;
                  if a =? -1
                  then emit (stderr_error "failed to apply translator options");;
                       ret (-1)
                  else
                    l <- (if debug st then glfs_set_logging s' else ret a);;
                    if l =? -1
                    then emit (stderr_error "failed to set logging level");;
                         ret (-1)
                    else
                      r <- gluster_get st s' (path g);;
                      if r =? -1 then ret (-1) else ret 0
              end);;
      (* out: *)
      match s with
      | Some s' => glfs_fini s'
      | None => ret tt
      end;;
      ret r
  end.

(** [do_cat]: with the session of the caller when there is one, with a
    session of its own otherwise. *)
Definition do_cat (ctx : cli_context) : io Z :=
  let st := init_state in
  match fs ctx with
  | Some s =>
      x <- parse_options (argv ctx) true st;;
      let '(r, st) := x in
      if negb (r =? 0) then ret r
      else
        match st_gluster_url st with
        | None => undefined
        | Some g => gluster_get st s (path g)
        end
  | None =>
      let st := set_debug st (options_debug ctx) in
      x <- parse_options (argv ctx) false st;;
      let '(r, st) := x in
      if r =? -2 then ret 0
      else if r =? -1 then ret r
      else cat_without_context st
  end.

(** ** What the option loop accepts *)

Definition optarg_text (r : Getopt.ret_t) : string :=
  match Getopt.optarg r with Some a => a | None => "" end.

Definition is_port_option (r : Getopt.ret_t) : bool :=
  Ascii.eqb (Getopt.opt r) "p".

Definition is_xlator_option (r : Getopt.ret_t) : bool :=
  Ascii.eqb (Getopt.opt r) "o".

(** A port option whose value [strtoport] refuses. *)
Definition bad_port (r : Getopt.ret_t) : bool :=
  is_port_option r && (strtoport (optarg_text r) =? 0).

(** A translator option that [parse_xlator_option] refuses. *)
Definition bad_xlator (r : Getopt.ret_t) : bool :=
  is_xlator_option r
  && match parse_xlator_option (optarg_text r) with Some _ => false | None => true end.

(** A help or version request. *)
Definition is_info_request (r : Getopt.ret_t) : bool :=
  Ascii.eqb (Getopt.opt r) "x" || Ascii.eqb (Getopt.opt r) "v".

(** The loop goes on after [r]: debug, a well-formed translator option
    or a valid port. *)
Definition option_ok (r : Getopt.ret_t) : bool :=
  Ascii.eqb (Getopt.opt r) "d"
  || (is_xlator_option r && negb (bad_xlator r))
  || (is_port_option r && negb (bad_port r)).

(** The locals [port] and [option_index] and the state once the loop has
    gone through [rs]. *)
Definition next_port (p : Z) (r : Getopt.ret_t) : Z :=
  if Ascii.eqb (Getopt.opt r) "d" then p
  else if is_xlator_option r then p
  else if is_port_option r then strtoport (optarg_text r)
  else p.

Definition next_index (i : Z) (r : Getopt.ret_t) : Z :=
  match Getopt.longind r with Some n => Z.of_nat n | None => i end.

Definition next_state (st : state) (r : Getopt.ret_t) : state :=
  if Ascii.eqb (Getopt.opt r) "d" then set_debug st true
  else if is_xlator_option r then
    match parse_xlator_option (optarg_text r) with
    | Some o => set_xlator_options st (xlator_options st ++ [o])
    | None => st
    end
  else st.

Definition final_port (rs : list Getopt.ret_t) (p : Z) : Z := fold_left next_port rs p.
Definition final_index (rs : list Getopt.ret_t) (i : Z) : Z := fold_left next_index rs i.
Definition final_state (rs : list Getopt.ret_t) (st : state) : state :=
  fold_left next_state rs st.

(** The messages on standard error. *)
Fixpoint errors (t : list event) : list string :=
  match t with
  | [] => []
  | stderr_error m :: t' => m :: errors t'
  | _ :: t' => errors t'
  end.

(** Every chunk is full, the last one apart, which is not empty. *)
Fixpoint fixed_size (l : list (list byte)) : Prop :=
  match l with
  | [] => True
  | c :: l' =>
      match l' with
      | [] => (0 < length c <= BUFSIZE)%nat
      | _ => length c = BUFSIZE /\ fixed_size l'
      end
  end.

(** The invalid port values: a negative number, text that is not a
    number, zero, a number above 65535. *)
Definition negative (v : string) : Prop :=
  exists digits, v = String "-" digits.

Definition not_a_number (v : string) : Prop :=
  Str.all_digits v = false \/ v = "".

Definition invalid_port (v : string) : Prop :=
  negative v \/ not_a_number v \/ Str.decimal 0 v = 0 \/ 65535 < Str.decimal 0 v.

(** How [do_cat] calls [parse_options], and what it returns when
    [parse_options] returned [v], not 0. *)
Definition has_connection (ctx : cli_context) : bool :=
  match fs ctx with Some _ => true | None => false end.

Definition entry_state (ctx : cli_context) : state :=
  match fs ctx with
  | Some _ => init_state
  | None => set_debug init_state (options_debug ctx)
  end.

Definition status_of (ctx : cli_context) (v : Z) : Z :=
  match fs ctx with
  | Some _ => v
  | None => if v =? -2 then 0 else v
  end.

(** An identifier [scheme://host:port/volume/path] and what makes its
    parts well formed: no separator inside a part, no empty scheme, host
    or volume, a valid port. *)
Definition identifier (scheme h n vol p : string) : string :=
  (scheme ++ "://" ++ h ++ ":" ++ n ++ "/" ++ vol ++ "/" ++ p)%string.

Definition valid_identifier (scheme h n vol : string) : Prop :=
  scheme <> "" /\ Str.contains ":" scheme = false
  /\ h <> "" /\ Str.contains ":" h = false /\ Str.contains "/" h = false
  /\ strtoport n <> 0
  /\ vol <> "" /\ Str.contains "/" vol = false.

(** Reads and writes, the calls of the read loop. *)
Definition is_transfer (e : event) : bool :=
  match e with call_glfs_read _ | call_write _ _ => true | _ => false end.

(** The value of [ret] and the trace at the label [out] once the file is
    open. *)
Definition at_out (st : state) (content : list byte) : Z * list event :=
  if lock_contended E
  then (-1, [call_gluster_lock; stderr_error (url_text st)])
  else if fst (read_loop 0 content) =? -1
       then (-1, call_gluster_lock :: snd (read_loop 0 content)
                   ++ [stderr_error "write error"])
       else (0, call_gluster_lock :: snd (read_loop 0 content)).

(** How the option loop stops at an option it does not go on after. *)
Definition stop (r : Getopt.ret_t) (st : state) : loop_exit * list event :=
  if is_xlator_option r then (goto_err st, [stderr_error (optarg_text r)])
  else if is_port_option r then (goto_out (-1) st, [])
  else if Ascii.eqb (Getopt.opt r) "v" then (goto_out (-2) st, [stdout_version])
  else if Ascii.eqb (Getopt.opt r) "x" then (goto_out (-2) st, [stdout_usage])
  else (goto_err st, []).

(** Messages and printed text, as opposed to calls of the client library. *)
Definition is_text (e : event) : bool :=
  match e with stderr_error _ | stdout_usage | stdout_version => true | _ => false end.

Definition only_text (t : list event) : Prop :=
  Forall (fun e => is_text e = true) t.

(** What [parse_operand] leaves when it returns 0: the operand is the
    last element of [argv]; with a connection it becomes the path of an
    otherwise empty target, without one it is parsed as an identifier and
    the target takes the port of the options. *)
Definition operand_taken (argv : list string) (has_connection : bool) (port : Z)
           (st st' : state) : Prop :=
  exists last,
    nth_error (Getopt.permuted optstring long_options argv)
              (Z.to_nat (Z.of_nat (length argv) - 1)) = Some last
    /\ url st' = Some last
    /\ xlator_options st' = xlator_options st
    /\ debug st' = debug st
    /\ if has_connection
       then st_gluster_url st' = Some (with_path gluster_url_init last)
       else exists g, gluster_parse_url last = Some g
                      /\ st_gluster_url st' = Some (with_port g port).

(** ** Order in a trace *)

Definition is_open (e : event) : bool :=
  match e with call_glfs_open _ _ => true | _ => false end.

Definition is_lock (e : event) : bool :=
  match e with call_gluster_lock => true | _ => false end.

Definition is_apply (e : event) : bool :=
  match e with call_apply_xlator_options _ _ => true | _ => false end.

Definition is_set_logging (e : event) : bool :=
  match e with call_glfs_set_logging _ => true | _ => false end.

(** Usage and version text, which go to standard output as the bytes of
    the file do. *)
Definition is_stdout_text (e : event) : bool :=
  match e with stdout_usage | stdout_version => true | _ => false end.

(** Every event that satisfies [q] comes after one that satisfies [p]. *)
Definition preceded_by (p q : event -> bool) (t : list event) : Prop :=
  forall t1 e t2, t = t1 ++ e :: t2 -> q e = true ->
                  exists e', In e' t1 /\ p e' = true.

(** Every event that satisfies [q] comes before one that satisfies [p]. *)
Definition followed_by (p q : event -> bool) (t : list event) : Prop :=
  forall t1 e t2, t = t1 ++ e :: t2 -> q e = true ->
                  exists e', In e' t2 /\ p e' = true.

(** Nothing comes after an event that satisfies [p]. *)
Definition last_of (p : event -> bool) (t : list event) : Prop :=
  forall t1 e t2, t = t1 ++ e :: t2 -> p e = true -> t2 = [].

(** The translator options of the command line, in order. *)
Definition given_options (rs : list Getopt.ret_t) : list xlator_option :=
  flat_map (fun r =>
              if is_xlator_option r
              then match parse_xlator_option (optarg_text r) with
                   | Some o => [o]
                   | None => []
                   end
              else []) rs.

(** [-d] or [--debug] is on the command line. *)
Definition debug_requested (rs : list Getopt.ret_t) : bool :=
  existsb (fun r => Ascii.eqb (Getopt.opt r) "d") rs.


(** A sample volume on which the second read fails, and one on which the
    second write is cut short after one byte. *)
Definition sample_read_failure : env :=
  {| getfs := fun _ => getfs_ok 7%nat;
     apply_options_fails := false;
     set_logging_fails := false;
     files := fun f => if String.eqb f "/path" then Some digits else None;
     lock_contended := false;
     read_fails := fun i => Nat.eqb i 1;
     short_write := fun _ => None;
     close_fails := false |}.

Definition sample_short_write : env :=
  {| getfs := fun _ => getfs_ok 7%nat;
     apply_options_fails := false;
     set_logging_fails := false;
     files := fun f => if String.eqb f "/path" then Some digits else None;
     lock_contended := false;
     read_fails := fun _ => false;
     short_write := fun i => if Nat.eqb i 1 then Some 1%nat else None;
     close_fails := false |}.

(** ** Traces *)

Lemma count_app p t1 t2 : count p (t1 ++ t2) = (count p t1 + count p t2)%nat.
Proof. unfold count. now rewrite filter_app, length_app. Qed.

Lemma never_app p t1 t2 : never p t1 -> never p t2 -> never p (t1 ++ t2).
Proof. unfold never. intros H1 H2. apply Forall_app. now split. Qed.

Lemma never_count p t : never p t -> count p t = 0%nat.
Proof.
  unfold never, count. induction 1 as [|e t He _ IH]; simpl; [reflexivity|].
  now rewrite He.
Qed.

Lemma sink_app t1 t2 : sink (t1 ++ t2) = sink t1 ++ sink t2.
Proof.
  induction t1 as [|e t1 IH]; simpl; [reflexivity|].
  destruct e; simpl; rewrite IH; trivial. now rewrite app_assoc.
Qed.

Lemma bytes_read_app t1 t2 : bytes_read (t1 ++ t2) = (bytes_read t1 + bytes_read t2)%nat.
Proof.
  induction t1 as [|e t1 IH]; simpl; [reflexivity|].
  destruct e as [| | | | | |[got|]| | | | |]; simpl; rewrite IH; lia.
Qed.

Lemma errors_app t1 t2 : errors (t1 ++ t2) = errors t1 ++ errors t2.
Proof.
  induction t1 as [|e t1 IH]; simpl; [reflexivity|].
  destruct e; simpl; rewrite IH; trivial.
Qed.

(** A trace of reads and writes holds no other call and no message. *)
Lemma transfers_never (p : event -> bool) t :
  (forall e, is_transfer e = true -> p e = false) ->
  Forall (fun e => is_transfer e = true) t -> never p t.
Proof.
  intros Hp. unfold never. induction 1; constructor; auto.
Qed.

Lemma transfers_errors t :
  Forall (fun e => is_transfer e = true) t -> errors t = [].
Proof.
  induction 1 as [|e t He _ IH]; simpl; [reflexivity|].
  destruct e; simpl in *; try discriminate; exact IH.
Qed.

(** ** The read loop *)

Lemma read_loop_eq i rest :
  read_loop i rest =
  match firstn BUFSIZE rest with
  | [] =>
      if read_fails E i then (-1, [call_glfs_read None])
      else (0, [call_glfs_read (Some [])])
  | chunk =>
      if read_fails E i then (-1, [call_glfs_read None])
      else if (accepted i chunk <? length chunk)%nat
           then (-1, [call_glfs_read (Some chunk); call_write chunk (accepted i chunk)])
           else let '(r, t) := read_loop (S i) (skipn BUFSIZE rest) in
                (r, call_glfs_read (Some chunk) :: call_write chunk (accepted i chunk) :: t)
  end.
Proof.
  funelim (read_loop i rest).
  - rewrite e. reflexivity.
  - rewrite Hchunk. reflexivity.
Qed.

Lemma read_loop_transfers i rest :
  Forall (fun e => is_transfer e = true) (snd (read_loop i rest)).
Proof.
  funelim (read_loop i rest).
  - destruct (read_fails E i); repeat constructor.
  - destruct (read_fails E i); [repeat constructor|].
    cbv zeta. destruct (_ <? _)%nat; [repeat constructor|].
    destruct (read_loop (S i) (skipn BUFSIZE rest)) as [r t]. simpl in *.
    repeat constructor. assumption.
Qed.

Lemma read_loop_status i rest :
  fst (read_loop i rest) = 0 \/ fst (read_loop i rest) = -1.
Proof.
  funelim (read_loop i rest).
  - destruct (read_fails E i); auto.
  - destruct (read_fails E i); auto.
    cbv zeta. destruct (_ <? _)%nat; auto.
    destruct (read_loop (S i) (skipn BUFSIZE rest)) as [r t]. simpl in *. assumption.
Qed.

Lemma fixed_size_concat l : (0 < BUFSIZE)%nat -> fixed_size l -> l <> [] -> concat l <> [].
Proof.
  intros HB. destruct l as [|c l]; [congruence|]. intros H _.
  simpl in H. destruct l as [|c' l].
  - destruct c; simpl in *; [lia|discriminate].
  - destruct H as [H _]. destruct c; simpl in *; [lia|discriminate].
Qed.

(** Without a failing read or a short write the loop copies what is left
    of the file, chunk by chunk. *)
Lemma read_loop_streams :
  (0 < BUFSIZE)%nat ->
  (forall i, read_fails E i = false) ->
  (forall i, short_write E i = None) ->
  forall i rest,
    fst (read_loop i rest) = 0
    /\ sink (snd (read_loop i rest)) = rest
    /\ concat (chunks (snd (read_loop i rest))) = rest
    /\ fixed_size (chunks (snd (read_loop i rest)))
    /\ bytes_read (snd (read_loop i rest)) = length rest.
Proof.
  intros HB Hread Hwrite i rest.
  funelim (read_loop i rest).
  - rewrite Hread. simpl.
    assert (rest = []) as ->.
    { destruct rest; [reflexivity|]. destruct BUFSIZE; [lia|discriminate]. }
    auto.
  - rewrite Hread. cbv zeta.
    unfold accepted. rewrite Hwrite, Nat.ltb_irrefl.
    specialize (H HB Hread Hwrite).
    destruct (read_loop (S i) (skipn BUFSIZE rest)) as [r t].
    simpl fst in *. simpl snd in *.
    destruct H as (Hr & Hs & Hc & Hf & Hb).
    assert (Hrest : rest = (b :: bs) ++ skipn BUFSIZE rest).
    { rewrite <- Hchunk. symmetry. apply firstn_skipn. }
    split; [assumption|].
    split. { cbn [sink firstn]. rewrite firstn_all, Hs. symmetry. exact Hrest. }
    split. { cbn [chunks concat]. rewrite Hc. symmetry. exact Hrest. }
    split.
    + assert (Hlen : length (b :: bs) = Nat.min BUFSIZE (length rest))
        by (rewrite <- Hchunk; apply length_firstn).
      cbn [chunks]. cbn [fixed_size]. fold fixed_size.
      destruct (chunks t) as [|c l] eqn:Hl.
      * simpl in *. lia.
      * split; [|assumption].
        assert (Hne : skipn BUFSIZE rest <> []).
        { rewrite <- Hc. apply fixed_size_concat; [assumption|assumption|discriminate]. }
        assert (length (skipn BUFSIZE rest) <> 0)%nat
          by (destruct (skipn BUFSIZE rest); [congruence|discriminate]).
        rewrite length_skipn in *. simpl in *. lia.
    + cbn [bytes_read]. rewrite Hb.
      rewrite Hrest at 2. rewrite length_app. reflexivity.
Qed.

(** ** [gluster_get] *)

(** The return value and the trace when the file cannot be opened. *)
Lemma gluster_get_not_opened st s filename :
  files E filename = None ->
  gluster_get st s filename
  = Some (-1, [call_glfs_open s filename; stderr_error (url_text st)]).
Proof.
  intros Hopen. unfold gluster_get, glfs_open. cbn. rewrite Hopen. reflexivity.
Qed.

Lemma gluster_get_opened st g s filename content :
  files E filename = Some content ->
  st_gluster_url st = Some g ->
  gluster_get st s filename
  = Some (if close_fails E then -1 else fst (at_out st content),
          call_glfs_open s filename :: snd (at_out st content)
            ++ call_glfs_close
            :: (if close_fails E
                then [stderr_error ("cannot close file " ++ path g)%string]
                else [])).
Proof.
  intros Hopen Hg. unfold gluster_get, glfs_open, at_out. cbn. rewrite Hopen.
  unfold gluster_lock, gluster_read, glfs_close. cbn.
  destruct (lock_contended E); cbn.
  - rewrite Hg. destruct (close_fails E); reflexivity.
  - destruct (read_loop 0 content) as [rd t]. cbn.
    destruct (rd =? -1); cbn; rewrite Hg; destruct (close_fails E); cbn;
      rewrite ?app_nil_r, <- ?app_assoc; reflexivity.
Qed.

(** ** [getopt_long] keeps every element of [argv] *)

Lemma scan_length os lo n :
  forall args, (length args <= n)%nat ->
    (length (Getopt.option_elements (Getopt.scan os lo args))
     + length (Getopt.non_options (Getopt.scan os lo args)))%nat = length args.
Proof.
  induction n as [|n IH]; intros [|a rest] Hn; simpl in Hn; try reflexivity; try lia.
  assert (Hrest : (length rest <= n)%nat) by lia.
  pose proof (IH rest Hrest) as IHrest.
  cbn [Getopt.scan].
  destruct (Getopt.classify a) as [|body|cl|].
  - simpl. lia.
  - destruct (match Str.split_at "=" body with
              | Some (n0, v) => (n0, Some v) | None => (body, None) end) as [nm value].
    destruct (Getopt.long_lookup lo nm) as [[i o]|]; [|simpl; lia].
    destruct value as [v|], (Getopt.has_arg o); try (simpl; lia).
    destruct rest as [|v rest']; [simpl; lia|].
    simpl in Hrest. assert (IH' := IH rest' ltac:(lia)). simpl. lia.
  - destruct (Getopt.short_cluster os cl) as [rs [c|]]; [|simpl; lia].
    destruct rest as [|v rest']; [simpl; lia|].
    simpl in Hrest. assert (IH' := IH rest' ltac:(lia)). simpl. lia.
  - simpl. lia.
Qed.

Lemma permuted_length os lo argv :
  length (Getopt.permuted os lo argv) = length argv.
Proof.
  destruct argv as [|a0 args]; [reflexivity|].
  simpl. rewrite length_app. f_equal. now apply scan_length with (n := length args).
Qed.

(** ** The option loop *)

Lemma option_loop_ok r rest p oi st :
  option_ok r = true ->
  option_loop (r :: rest) p oi st
  = option_loop rest (next_port p r) (next_index oi r) (next_state st r).
Proof.
  unfold option_ok, bad_xlator, bad_port, is_port_option, is_xlator_option,
    next_port, next_index, next_state, optarg_text, is_port_option, is_xlator_option.
  cbn [option_loop]. intros Hok.
  destruct (Ascii.eqb_spec (Getopt.opt r) "d") as [Hd|Hd]; [reflexivity|].
  destruct (Ascii.eqb_spec (Getopt.opt r) "o") as [Ho|Ho].
  - destruct (parse_xlator_option _); [reflexivity|].
    rewrite Ho in Hok. discriminate Hok.
  - destruct (Ascii.eqb_spec (Getopt.opt r) "p") as [Hp|Hp]; [|discriminate Hok].
    simpl in Hok. destruct (strtoport _ =? 0); [discriminate Hok|reflexivity].
Qed.

Lemma option_loop_stop r rest p oi st :
  option_ok r = false ->
  option_loop (r :: rest) p oi st = Some (stop r st).
Proof.
  unfold option_ok, bad_xlator, bad_port, is_port_option, is_xlator_option, stop,
    optarg_text, is_port_option, is_xlator_option.
  cbn [option_loop]. intros Hok.
  destruct (Ascii.eqb_spec (Getopt.opt r) "d") as [Hd|Hd]; [discriminate Hok|].
  destruct (Ascii.eqb_spec (Getopt.opt r) "o") as [Ho|Ho].
  - destruct (parse_xlator_option _); [discriminate Hok|reflexivity].
  - destruct (Ascii.eqb_spec (Getopt.opt r) "p") as [Hp|Hp].
    + simpl in Hok. destruct (strtoport _ =? 0); [reflexivity|discriminate Hok].
    + destruct (Ascii.eqb (Getopt.opt r) "v"); [reflexivity|].
      destruct (Ascii.eqb (Getopt.opt r) "x"); reflexivity.
Qed.

Lemma option_loop_app pre rest p oi st :
  forallb option_ok pre = true ->
  option_loop (pre ++ rest) p oi st
  = option_loop rest (final_port pre p) (final_index pre oi) (final_state pre st).
Proof.
  revert p oi st. induction pre as [|r pre IH]; intros p oi st Hok; [reflexivity|].
  simpl in Hok. apply andb_prop in Hok as [Hr Hpre].
  simpl app. rewrite option_loop_ok by assumption. now rewrite IH.
Qed.

(** Either the loop goes through every option, or there is a first one
    at which it stops. *)
Lemma first_stop rs :
  forallb option_ok rs = true
  \/ exists pre r post,
      rs = pre ++ r :: post /\ forallb option_ok pre = true /\ option_ok r = false.
Proof.
  induction rs as [|r rs [IH|(pre & r' & post & -> & Hpre & Hr')]].
  - now left.
  - destruct (option_ok r) eqn:Hr.
    + left. simpl. now rewrite Hr.
    + right. now exists [], r, rs.
  - destruct (option_ok r) eqn:Hr.
    + right. exists (r :: pre), r', post. simpl. now rewrite Hr.
    + right. now exists [], r, (pre ++ r' :: post).
Qed.

Lemma final_index_nonneg rs i : 0 <= i -> 0 <= final_index rs i.
Proof.
  revert i. induction rs as [|r rs IH]; intros i Hi; [assumption|].
  apply IH. unfold next_index. destruct (Getopt.longind r); lia.
Qed.

(** ** [parse_options] *)

Lemma text_never (p : event -> bool) t :
  (forall e, is_text e = true -> p e = false) -> only_text t -> never p t.
Proof.
  intros Hp. unfold never, only_text. induction 1; constructor; auto.
Qed.

Lemma text_no_file_operation t : only_text t -> never is_file_operation t.
Proof. apply text_never. now intros []. Qed.

Lemma text_no_session_operation t : only_text t -> never is_session_operation t.
Proof. apply text_never. now intros []. Qed.

Lemma text_sink t : only_text t -> sink t = [] /\ bytes_read t = 0%nat.
Proof.
  induction 1 as [|e t He _ IH]; simpl; [auto|].
  destruct e; simpl in *; try discriminate; exact IH.
Qed.

Lemma parse_operand_defined argv hc p oi st :
  0 <= oi ->
  exists v st' t,
    parse_operand argv hc p oi st = Some ((v, st'), t)
    /\ only_text t
    /\ (v = 0 \/ v = -1)
    /\ (v = 0 -> t = [] /\ 2 <= Z.of_nat (length argv) - oi
                 /\ operand_taken argv hc p st st').
Proof.
  intros Hoi. unfold parse_operand, err.
  destruct (Z.ltb_spec (Z.of_nat (length argv) - oi) 2) as [Hlt|Hge].
  - cbn. do 3 eexists. split; [reflexivity|].
    split; [repeat constructor|]. split; [now right|discriminate].
  - destruct (nth_error _ _) as [last|] eqn:Hlast.
    + destruct hc.
      * cbn. do 3 eexists. split; [reflexivity|].
        split; [constructor|]. split; [now left|]. intros _.
        split; [reflexivity|]. split; [assumption|].
        exists last. cbn. auto.
      * destruct (gluster_parse_url last) as [g|] eqn:Hg; cbn.
        -- do 3 eexists. split; [reflexivity|].
           split; [constructor|]. split; [now left|]. intros _.
           split; [reflexivity|]. split; [assumption|].
           exists last. cbn. repeat split; trivial. now exists g.
        -- do 3 eexists. split; [reflexivity|].
           split; [repeat constructor|]. split; [now right|discriminate].
    + apply nth_error_None in Hlast. rewrite permuted_length in Hlast. lia.
Qed.

Lemma stop_kinds r st :
  exists x t, stop r st = (x, t) /\ only_text t
              /\ match x with
                 | loop_break _ _ _ => False
                 | goto_out v st' => st' = st /\ (v = -1 \/ v = -2)
                 | goto_err st' => st' = st
                 end.
Proof.
  unfold stop.
  destruct (is_xlator_option r);
    [do 2 eexists; split; [reflexivity|split; [repeat constructor|reflexivity]]|].
  destruct (is_port_option r);
    [do 2 eexists; split; [reflexivity|split; [repeat constructor|auto]]|].
  destruct (Ascii.eqb _ "v");
    [do 2 eexists; split; [reflexivity|split; [repeat constructor|auto]]|].
  destruct (Ascii.eqb _ "x");
    do 2 eexists; (split; [reflexivity|split; [repeat constructor|auto]]).
Qed.

Lemma parse_options_accepted argv hc st :
  let rs := Getopt.getopt_long optstring long_options argv in
  forallb option_ok rs = true ->
  parse_options argv hc st
  = parse_operand argv hc (final_port rs (uint16 GLUSTER_DEFAULT_PORT))
                  (final_index rs 0) (final_state rs st).
Proof.
  intros rs Hok. unfold parse_options. fold rs.
  rewrite <- (app_nil_r rs) at 1. rewrite option_loop_app by assumption.
  cbn [option_loop]. unfold bind, ret.
  destruct (parse_operand _ _ _ _ _) as [[[v st'] t]|]; [|reflexivity].
  reflexivity.
Qed.

Lemma parse_options_stopped argv hc st pre r post :
  Getopt.getopt_long optstring long_options argv = pre ++ r :: post ->
  forallb option_ok pre = true ->
  option_ok r = false ->
  parse_options argv hc st
  = match stop r (final_state pre st) with
    | (goto_out v st', t) => Some ((v, st'), t)
    | (_, t) =>
        Some ((-1, final_state pre st),
              t ++ [stderr_error "Try --help for more information."])
    end.
Proof.
  intros Hrs Hpre Hr. unfold parse_options. rewrite Hrs.
  rewrite option_loop_app, option_loop_stop by assumption.
  destruct (stop_kinds r (final_state pre st)) as (x & t & -> & _ & Hx).
  destruct x as [| v st'|st']; [contradiction| |]; cbn.
  - now rewrite app_nil_r.
  - now subst st'.
Qed.

(** [parse_options] always returns, with 0, -1 or -2, after nothing but
    messages; it returns 0 only when the loop went through every option
    and the operand was taken. *)
Lemma parse_options_defined argv hc st :
  let rs := Getopt.getopt_long optstring long_options argv in
  exists v st' t,
    parse_options argv hc st = Some ((v, st'), t)
    /\ only_text t
    /\ (v = 0 \/ v = -1 \/ v = -2)
    /\ (v = 0 ->
        forallb option_ok rs = true /\ t = []
        /\ 2 <= Z.of_nat (length argv) - final_index rs 0
        /\ operand_taken argv hc (final_port rs (uint16 GLUSTER_DEFAULT_PORT))
             (final_state rs st) st').
Proof.
  intros rs. destruct (first_stop rs) as [Hok|(pre & r & post & Hrs & Hpre & Hr)].
  - rewrite parse_options_accepted by assumption. fold rs.
    destruct (parse_operand_defined argv hc
                (final_port rs (uint16 GLUSTER_DEFAULT_PORT)) (final_index rs 0)
                (final_state rs st)) as (v & st' & t & Heq & Ht & Hv & H0).
    { now apply final_index_nonneg. }
    exists v, st', t. split; [assumption|]. split; [assumption|].
    split; [tauto|]. intros Hv0. destruct (H0 Hv0) as (-> & Hargc & Hop). auto.
  - rewrite (parse_options_stopped argv hc st pre r post) by assumption.
    destruct (stop_kinds r (final_state pre st)) as (x & t & -> & Ht & Hx).
    destruct x as [| v st'|st']; [contradiction| |].
    + destruct Hx as [-> Hv]. do 3 eexists. split; [reflexivity|].
      split; [assumption|]. split; [tauto|]. intros ->. lia.
    + do 3 eexists. split; [reflexivity|].
      split; [apply Forall_app; split; [assumption|repeat constructor]|].
      split; [tauto|]. discriminate.
Qed.

(** ** [gluster_get], [cat_without_context] and [do_cat] always return *)

Lemma chunks_app t1 t2 : chunks (t1 ++ t2) = chunks t1 ++ chunks t2.
Proof.
  induction t1 as [|e t1 IH]; simpl; [reflexivity|].
  destruct e; simpl; rewrite IH; trivial.
Qed.

Lemma at_out_facts st content :
  (fst (at_out st content) = 0 \/ fst (at_out st content) = -1)
  /\ never is_session_operation (snd (at_out st content))
  /\ never is_close (snd (at_out st content)).
Proof.
  pose proof (read_loop_transfers 0 content) as Ht.
  assert (Hs : never is_session_operation (snd (read_loop 0 content)))
    by (apply transfers_never; [now intros []|assumption]).
  assert (Hc : never is_close (snd (read_loop 0 content)))
    by (apply transfers_never; [now intros []|assumption]).
  unfold at_out. destruct (lock_contended E); cbn.
  - split; [now right|]. split; repeat constructor.
  - destruct (_ =? -1); cbn.
    + split; [now right|].
      split; constructor; try reflexivity; apply never_app; trivial; repeat constructor.
    + split; [now left|]. split; constructor; trivial.
Qed.

Lemma gluster_get_defined st g s filename :
  st_gluster_url st = Some g ->
  exists r t,
    gluster_get st s filename = Some (r, call_glfs_open s filename :: t)
    /\ (r = 0 \/ r = -1)
    /\ never is_session_operation t
    /\ count is_close t = match files E filename with Some _ => 1 | None => 0 end%nat.
Proof.
  intros Hg. destruct (files E filename) as [content|] eqn:Hopen.
  - rewrite (gluster_get_opened st g s filename content) by assumption.
    destruct (at_out_facts st content) as (Hr & Hs & Hc).
    do 2 eexists. split; [reflexivity|].
    split; [destruct (close_fails E); tauto|].
    split.
    + apply never_app; [assumption|].
      destruct (close_fails E); repeat constructor.
    + rewrite count_app, (never_count is_close) by assumption.
      destruct (close_fails E); reflexivity.
  - rewrite gluster_get_not_opened by assumption.
    do 2 eexists. split; [reflexivity|]. split; [now right|].
    split; [repeat constructor|reflexivity].
Qed.

(** An exit of [cat_without_context] with -1 before [gluster_get]. *)
Ltac early_exit :=
  do 2 eexists; split; [reflexivity|]; split; [now right|];
  split; [reflexivity|]; split; [cbn; lia|].

(** [cat_without_context] from the call of [gluster_getfs] on. *)
Lemma cat_without_context_defined st g :
  st_gluster_url st = Some g ->
  exists r t,
    cat_without_context st = Some (r, call_gluster_getfs g :: t)
    /\ (r = 0 \/ r = -1)
    /\ count is_fini t
       = match getfs E g with getfs_failed None => 0 | _ => 1 end%nat
    /\ (count is_close t <= 1)%nat
    /\ (getfs E g = getfs_failed None \/ (exists s, getfs E g = getfs_failed (Some s)) ->
        r = -1 /\ never is_file_operation t).
Proof.
  intros Hg. unfold cat_without_context, gluster_getfs. rewrite Hg.
  destruct (getfs E g) as [s|[s|]] eqn:Hfs; cbn -[gluster_get].
  - unfold apply_xlator_options, glfs_set_logging. cbn -[gluster_get].
    destruct (apply_options_fails E); cbn -[gluster_get].
    { early_exit. intros [H|[s' H]]; discriminate H. }
    destruct (gluster_get_defined st g s (path g) Hg) as (r & t & Hget & Hr & Hs & Hc).
    assert (Hfini : count is_fini t = 0%nat).
    { apply never_count. unfold never in *. eapply Forall_impl; [|exact Hs].
      now intros []. }
    assert (Hclose : (count is_close t <= 1)%nat)
      by (rewrite Hc; destruct (files E (path g)); lia).
    destruct (debug st); cbn -[gluster_get].
    + destruct (set_logging_fails E); cbn -[gluster_get].
      { early_exit. intros [H|[s' H]]; discriminate H. }
      rewrite Hget. cbn -[gluster_get].
      exists (if r =? -1 then -1 else 0). eexists.
      split; [destruct (r =? -1); cbn -[gluster_get]; rewrite ?app_nil_r; reflexivity|].
      split; [destruct (r =? -1); tauto|].
      split; [|split; [|intros [H|[s' H]]; discriminate H]].
      * change (count is_fini (call_apply_xlator_options s (xlator_options st)
                 :: call_glfs_set_logging s :: call_glfs_open s (path g)
                 :: t ++ [call_glfs_fini s]) = 1%nat).
        unfold count in *. cbn -[gluster_get]. rewrite filter_app, length_app, Hfini. reflexivity.
      * unfold count in *. cbn -[gluster_get]. rewrite filter_app, length_app. cbn -[gluster_get]. lia.
    + rewrite Hget. cbn -[gluster_get].
      exists (if r =? -1 then -1 else 0). eexists.
      split; [destruct (r =? -1); cbn -[gluster_get]; rewrite ?app_nil_r; reflexivity|].
      split; [destruct (r =? -1); tauto|].
      split; [|split; [|intros [H|[s' H]]; discriminate H]].
      * unfold count in *. cbn -[gluster_get]. rewrite filter_app, length_app, Hfini. reflexivity.
      * unfold count in *. cbn -[gluster_get]. rewrite filter_app, length_app. cbn -[gluster_get]. lia.
  - early_exit. intros _. split; [reflexivity|repeat constructor].
  - early_exit. intros _. split; [reflexivity|repeat constructor].
Qed.

(** ** The locked reader *)

(** C1.  When the file is opened and its exclusive lock cannot be taken,
    [gluster_get] fails with -1, no read is issued, no byte is read from
    the file, and nothing is written to the output. *)
Theorem lock_failure_reads_nothing st g s filename content :
  files E filename = Some content ->
  st_gluster_url st = Some g ->
  lock_contended E = true ->
  exists t,
    gluster_get st s filename = Some (-1, t)
    /\ never is_read t
    /\ bytes_read t = 0%nat
    /\ chunks t = []
    /\ sink t = [].
Proof.
  intros Hopen Hg Hlock.
  rewrite (gluster_get_opened st g s filename content) by assumption.
  unfold at_out. rewrite Hlock. cbn [fst snd].
  destruct (close_fails E); eexists; (split; [reflexivity|]);
    cbn; repeat split; repeat constructor.
Qed.

(** C2, as the code has it.  A file of N bytes that is opened and locked, read without a
    failing read and written without a short write, goes to the output in
    chunks of [BUFSIZE] bytes (the last one may be shorter): the output
    holds N bytes and the chunks, in order, make up the file. *)
Theorem streaming_round_trip st g s filename content :
  (0 < BUFSIZE)%nat ->
  files E filename = Some content ->
  st_gluster_url st = Some g ->
  lock_contended E = false ->
  (forall i, read_fails E i = false) ->
  (forall i, short_write E i = None) ->
  exists r t,
    gluster_get st s filename = Some (r, t)
    /\ r = (if close_fails E then -1 else 0)
    /\ length (sink t) = length content
    /\ sink t = content
    /\ concat (chunks t) = content
    /\ fixed_size (chunks t)
    /\ bytes_read t = length content.
Proof.
  intros HB Hopen Hg Hlock Hread Hwrite.
  rewrite (gluster_get_opened st g s filename content) by assumption.
  destruct (read_loop_streams HB Hread Hwrite 0 content) as (Hr & Hs & Hc & Hf & Hb).
  unfold at_out. rewrite Hlock, Hr. cbn [Z.eqb fst snd].
  do 2 eexists. split; [reflexivity|]. split; [reflexivity|].
  assert (Hsink : sink (call_glfs_open s filename
                    :: (call_gluster_lock :: snd (read_loop 0 content))
                    ++ call_glfs_close
                    :: (if close_fails E
                        then [stderr_error ("cannot close file " ++ path g)%string]
                        else [])) = content).
  { cbn [sink app]. rewrite sink_app, Hs.
    destruct (close_fails E); cbn; apply app_nil_r. }
  split; [now rewrite Hsink|]. split; [exact Hsink|].
  cbn [chunks bytes_read app]. rewrite chunks_app, bytes_read_app.
  replace (chunks (call_glfs_close :: _)) with (@nil (list byte))
    by (destruct (close_fails E); reflexivity).
  replace (bytes_read (call_glfs_close :: _)) with 0%nat
    by (destruct (close_fails E); reflexivity).
  rewrite app_nil_r, Nat.add_0_r. auto.
Qed.

(** C5.  Once the file is open, [glfs_close] is called exactly once
    whatever happened to the lock, the reads and the writes.  When one of
    them failed the result is -1 and the first message is that of the
    failure, whether or not the close fails; otherwise the result is -1
    exactly when the close fails, and the message of the close is then the
    only one. *)
Theorem close_attempted_and_first_error_kept st g s filename content :
  files E filename = Some content ->
  st_gluster_url st = Some g ->
  let earlier := lock_contended E || (fst (read_loop 0 content) =? -1) in
  exists r t,
    gluster_get st s filename = Some (r, t)
    /\ count is_close t = 1%nat
    /\ (earlier = true ->
        r = -1
        /\ hd_error (errors t)
           = Some (if lock_contended E then url_text st else "write error"))
    /\ (earlier = false ->
        r = (if close_fails E then -1 else 0)
        /\ errors t = if close_fails E
                      then [("cannot close file " ++ path g)%string]
                      else []).
Proof.
  intros Hopen Hg earlier.
  rewrite (gluster_get_opened st g s filename content) by assumption.
  destruct (at_out_facts st content) as (_ & _ & Hc).
  do 2 eexists. split; [reflexivity|]. split.
  { change (call_glfs_open s filename :: ?l) with ([call_glfs_open s filename] ++ l).
    rewrite !count_app, (never_count is_close _ Hc).
    destruct (close_fails E); reflexivity. }
  pose proof (transfers_errors _ (read_loop_transfers 0 content)) as Herr.
  subst earlier. unfold at_out.
  destruct (lock_contended E); cbn [orb fst snd].
  - split; [|discriminate]. intros _.
    split; [destruct (close_fails E); reflexivity|reflexivity].
  - destruct (fst (read_loop 0 content) =? -1); cbn [fst snd].
    + split; [|discriminate]. intros _.
      split; [destruct (close_fails E); reflexivity|].
      cbn [errors app]. rewrite <- app_assoc, errors_app, Herr. reflexivity.
    + split; [discriminate|]. intros _. split; [reflexivity|].
      cbn [errors app]. rewrite errors_app, Herr.
      destruct (close_fails E); reflexivity.
Qed.

(** C4, as the code has it.  [glfs_close] is called exactly once when the
    file was opened, whatever fails afterwards, and not at all when the
    open failed.  With a session of its own, [cat_without_context] calls
    [glfs_fini] exactly once when [gluster_getfs] left a session, also when
    the steps after it or the read operation failed, and not at all when it
    left none; it calls it exactly once whenever a file was touched. *)
Theorem close_once_when_opened_fini_once_when_session st g :
  st_gluster_url st = Some g ->
  (forall s filename,
      exists r t,
        gluster_get st s filename = Some (r, t)
        /\ count is_close t
           = match files E filename with Some _ => 1 | None => 0 end%nat)
  /\ exists r t,
      cat_without_context st = Some (r, t)
      /\ count is_fini t
         = match getfs E g with getfs_failed None => 0 | _ => 1 end%nat
      /\ (count is_file_operation t <> 0%nat -> count is_fini t = 1%nat)
      /\ (count is_close t <= 1)%nat.
Proof.
  intros Hg. split.
  - intros s filename.
    destruct (gluster_get_defined st g s filename Hg) as (r & t & Hget & _ & _ & Hc).
    exists r, (call_glfs_open s filename :: t). split; [assumption|exact Hc].
  - destruct (cat_without_context_defined st g Hg)
      as (r & t & Hcat & _ & Hf & Hc & Hfailed).
    exists r, (call_gluster_getfs g :: t). split; [assumption|].
    split; [exact Hf|]. split; [|exact Hc].
    intros Htouched. change (count is_fini t = 1%nat).
    rewrite Hf. destruct (getfs E g) as [s|[s|]]; try reflexivity.
    exfalso. apply Htouched. change (count is_file_operation t = 0%nat).
    apply never_count. apply Hfailed. now left.
Qed.

(** ** Port values *)

Lemma decimal_nonneg s : forall acc, Str.all_digits s = true -> 0 <= acc -> 0 <= Str.decimal acc s.
Proof.
  induction s as [|x s IH]; intros acc Hd Hacc; [assumption|].
  cbn [Str.all_digits Str.decimal] in *.
  apply andb_prop in Hd as [Hx Hs]. apply IH; [assumption|].
  unfold Str.is_digit in Hx. cbv zeta in Hx. apply andb_prop in Hx as [Hlo _].
  apply Nat.leb_le in Hlo. lia.
Qed.

Lemma strtoport_invalid v : strtoport v = 0 <-> invalid_port v.
Proof.
  unfold strtoport, invalid_port, negative, not_a_number. split.
  - destruct (Str.all_digits v) eqn:Hd; [|auto].
    destruct (String.eqb_spec v ""); [auto|]. cbn [negb andb].
    pose proof (decimal_nonneg v 0 Hd ltac:(lia)).
    destruct (Z.leb_spec 1 (Str.decimal 0 v)); cbn [andb]; [|intros _; right; right; left; lia].
    destruct (Z.leb_spec (Str.decimal 0 v) 65535); [lia|auto].
  - intros [[digits ->]|[[Hd| ->]|[H0|Hbig]]]; try reflexivity.
    + now rewrite Hd.
    + destruct (_ && _); [|reflexivity]. now rewrite H0.
    + destruct (_ && _); [|reflexivity].
      destruct (Z.leb_spec (Str.decimal 0 v) 65535); [lia|].
      now rewrite andb_false_r.
Qed.

(** ** Options at which the loop stops *)

Lemma bad_port_stops r : bad_port r = true -> option_ok r = false /\ stop r = fun st => (goto_out (-1) st, []).
Proof.
  unfold option_ok, stop, bad_port, bad_xlator, is_port_option, is_xlator_option.
  intros H. apply andb_prop in H as [Hp H0]. rewrite Hp, H0.
  apply Ascii.eqb_eq in Hp. rewrite Hp. split; reflexivity.
Qed.

Lemma bad_xlator_stops r :
  bad_xlator r = true ->
  option_ok r = false
  /\ stop r = fun st => (goto_err st, [stderr_error (optarg_text r)]).
Proof.
  unfold option_ok, stop, bad_port, bad_xlator, is_port_option, is_xlator_option.
  intros H. apply andb_prop in H as [Ho H0]. rewrite Ho, H0.
  apply Ascii.eqb_eq in Ho. rewrite Ho. split; reflexivity.
Qed.

Lemma stops_somewhere r rs :
  In r rs -> option_ok r = false -> forallb option_ok rs = false.
Proof.
  intros Hin Hr. destruct (forallb option_ok rs) eqn:Hall; [|reflexivity].
  rewrite forallb_forall in Hall. rewrite (Hall r Hin) in Hr. discriminate Hr.
Qed.

(** ** [do_cat] *)

Lemma do_cat_parse_failed ctx v st' tp :
  parse_options (argv ctx) (has_connection ctx) (entry_state ctx) = Some ((v, st'), tp) ->
  v = -1 \/ v = -2 ->
  do_cat ctx = Some (status_of ctx v, tp).
Proof.
  unfold do_cat, has_connection, entry_state, status_of.
  destruct (fs ctx) as [s|]; intros -> [-> | ->]; cbn; now rewrite app_nil_r.
Qed.

Lemma do_cat_parse_ok ctx st' g :
  parse_options (argv ctx) (has_connection ctx) (entry_state ctx) = Some ((0, st'), []) ->
  st_gluster_url st' = Some g ->
  do_cat ctx = match fs ctx with
               | Some s => gluster_get st' s (path g)
               | None => cat_without_context st'
               end.
Proof.
  unfold do_cat, has_connection, entry_state.
  destruct (fs ctx) as [s|]; intros -> Hg; cbn -[gluster_get cat_without_context].
  - rewrite Hg. now destruct (gluster_get st' s (path g)) as [[r t]|].
  - now destruct (cat_without_context st') as [[r t]|].
Qed.

Lemma operand_taken_target argv hc p st st' :
  operand_taken argv hc p st st' -> exists g, st_gluster_url st' = Some g.
Proof.
  intros (last & _ & _ & _ & _ & H). destruct hc; [eauto|].
  destruct H as (g & _ & H). eauto.
Qed.

(** [do_cat] always returns: no [NULL] pointer is followed and [argv] is
    read within its bounds. *)
Lemma do_cat_defined ctx : exists r t, do_cat ctx = Some (r, t).
Proof.
  destruct (parse_options_defined (argv ctx) (has_connection ctx) (entry_state ctx))
    as (v & st' & tp & Hparse & _ & [-> |Hv] & H0).
  - destruct (H0 eq_refl) as (_ & -> & _ & Hop).
    destruct (operand_taken_target _ _ _ _ _ Hop) as (g & Hg).
    rewrite (do_cat_parse_ok ctx st' g Hparse Hg).
    destruct (fs ctx) as [s|].
    + destruct (gluster_get_defined st' g s (path g) Hg) as (r & t & -> & _). eauto.
    + destruct (cat_without_context_defined st' g Hg) as (r & t & -> & _). eauto.
  - rewrite (do_cat_parse_failed ctx v st' tp Hparse Hv). eauto.
Qed.

(** ** The command driver *)

(** With the session of the caller: what [parse_options] and [do_cat]
    return. *)
Lemma do_cat_borrowed a s d :
  let ctx := {| argv := a; fs := Some s; options_debug := d |} in
  exists v st' tp r t,
    parse_options a true init_state = Some ((v, st'), tp)
    /\ do_cat ctx = Some (r, t)
    /\ never is_session_operation t
    /\ only_text tp
    /\ (v <> 0 -> r = v /\ t = tp)
    /\ (v = 0 ->
        forallb option_ok (Getopt.getopt_long optstring long_options a) = true
        /\ exists last,
          nth_error (Getopt.permuted optstring long_options a)
                    (Z.to_nat (Z.of_nat (length a) - 1)) = Some last
          /\ st_gluster_url st' = Some (with_path gluster_url_init last)
          /\ gluster_get st' s last = Some (r, t)).
Proof.
  intros ctx.
  destruct (parse_options_defined a true init_state)
    as (v & st' & tp & Hparse & Htext & Hv & H0).
  destruct Hv as [-> |Hv].
  - destruct (H0 eq_refl) as (Hall & -> & _ & last & Hlast & _ & _ & _ & Hg).
    pose proof (do_cat_parse_ok ctx st' _ Hparse Hg) as Hcat.
    change (fs ctx) with (Some s) in Hcat. cbv iota beta in Hcat.
    change (path (with_path gluster_url_init last)) with last in Hcat.
    destruct (gluster_get_defined st' _ s last Hg) as (r & t & Hget & _ & Hs & _).
    exists 0, st', [], r, (call_glfs_open s last :: t).
    split; [assumption|]. split; [now rewrite Hcat|].
    split; [constructor; [reflexivity|assumption]|].
    split; [constructor|]. split; [congruence|]. intros _.
    split; [assumption|]. exists last. auto.
  - pose proof (do_cat_parse_failed ctx v st' tp Hparse Hv) as Hcat.
    change (status_of ctx v) with v in Hcat.
    exists v, st', tp, v, tp. split; [assumption|]. split; [assumption|].
    split; [now apply text_no_session_operation|].
    split; [assumption|]. split; [auto|]. intros ->. lia.
Qed.


(** The loop leaves with -2 at a help or version request only. *)
Lemma stop_minus_two r st st' t :
  stop r st = (goto_out (-2) st', t) -> is_info_request r = true.
Proof.
  unfold stop, is_info_request.
  destruct (is_xlator_option r); [discriminate|].
  destruct (is_port_option r); [discriminate|].
  destruct (Ascii.eqb (Getopt.opt r) "v"); [intros _; apply orb_true_r|].
  destruct (Ascii.eqb (Getopt.opt r) "x"); [reflexivity|discriminate].
Qed.

(** C9, as the code has it.  When the command line supplies an invalid
    port (a negative number, text that is not a number, zero, a number
    above 65535), [parse_options] never returns 0 and [do_cat] returns
    after nothing but messages: no session is set up and no file is
    touched.  [parse_options] returns -1, and so does [do_cat], when the
    loop reaches that option; it returns -2 only when a help or version
    request on the command line stops the loop. *)
Theorem invalid_port_aborts_before_connection ctx r0 v :
  let rs := Getopt.getopt_long optstring long_options (argv ctx) in
  In r0 rs ->
  is_port_option r0 = true ->
  Getopt.optarg r0 = Some v ->
  invalid_port v ->
  (forall hc st, exists pv st' tp,
      parse_options (argv ctx) hc st = Some ((pv, st'), tp)
      /\ (pv = -1 \/ (pv = -2 /\ existsb is_info_request rs = true)))
  /\ (exists r t,
        do_cat ctx = Some (r, t)
        /\ only_text t
        /\ never is_getfs t
        /\ never is_session_operation t
        /\ never is_file_operation t)
  /\ (forall pre post,
        rs = pre ++ r0 :: post ->
        forallb option_ok pre = true ->
        (forall hc st, exists st', parse_options (argv ctx) hc st = Some ((-1, st'), []))
        /\ do_cat ctx = Some (-1, [])).
Proof.
  intros rs Hin Hp Hv Hinv.
  assert (Hbad : bad_port r0 = true).
  { unfold bad_port, optarg_text. rewrite Hp, Hv.
    apply strtoport_invalid in Hinv. now rewrite Hinv. }
  destruct (bad_port_stops r0 Hbad) as [Hstop Hexit].
  assert (Hreject : forall hc st, exists pv st' tp,
             parse_options (argv ctx) hc st = Some ((pv, st'), tp)
             /\ only_text tp
             /\ (pv = -1 \/ (pv = -2 /\ existsb is_info_request rs = true))).
  { intros hc st.
    destruct (first_stop rs) as [Hall|(pre & r & post & Hrs & Hpre & Hr)].
    { rewrite (stops_somewhere r0 rs Hin Hstop) in Hall. discriminate Hall. }
    rewrite (parse_options_stopped (argv ctx) hc st pre r post Hrs Hpre Hr).
    destruct (stop_kinds r (final_state pre st)) as (x & t & Heq & Ht & Hx).
    rewrite Heq. destruct x as [| pv st'|st']; [contradiction| |].
    - destruct Hx as [-> Hpv]. do 3 eexists. split; [reflexivity|].
      split; [assumption|]. destruct Hpv as [-> | ->]; [now left|right].
      split; [reflexivity|]. apply existsb_exists. exists r.
      split; [rewrite Hrs; apply in_elt|exact (stop_minus_two _ _ _ _ Heq)].
    - do 3 eexists. split; [reflexivity|].
      split; [apply Forall_app; split; [assumption|repeat constructor]|now left]. }
  split; [|split].
  - intros hc st. destruct (Hreject hc st) as (pv & st' & tp & Hparse & _ & Hpv). eauto.
  - destruct (Hreject (has_connection ctx) (entry_state ctx))
      as (pv & st' & tp & Hparse & Htext & Hpv).
    rewrite (do_cat_parse_failed ctx pv st' tp Hparse) by tauto.
    do 2 eexists. split; [reflexivity|]. split; [assumption|].
    split; [apply text_never; [now intros []|assumption]|].
    split; [now apply text_no_session_operation|now apply text_no_file_operation].
  - intros pre post Hrs Hpre.
    assert (Hparse : forall hc st,
               parse_options (argv ctx) hc st = Some ((-1, final_state pre st), [])).
    { intros hc st.
      rewrite (parse_options_stopped (argv ctx) hc st pre r0 post Hrs Hpre Hstop).
      now rewrite Hexit. }
    split; [intros hc st; eauto|].
    rewrite (do_cat_parse_failed ctx (-1) _ [] (Hparse _ _)) by now left.
    unfold status_of. now destruct (fs ctx).
Qed.

(** C10.  With the session of the caller, whatever [--debug],
    [--xlator-option] and [--port] say: [do_cat] sets no logging, applies
    no translator option and sets up or tears down no session, and the
    target that [parse_options] leaves is the empty one with the operand
    for its path, so the port of the options is stored nowhere.  All the
    same, a translator option that [parse_xlator_option] refuses or a port
    that [strtoport] refuses makes [do_cat] return a non-zero value before
    any file is opened: nothing is read, nothing is written. *)
Theorem borrowed_session_options_checked_not_applied a s d :
  let ctx := {| argv := a; fs := Some s; options_debug := d |} in
  let rs := Getopt.getopt_long optstring long_options a in
  exists v st' tp r t,
    parse_options a true init_state = Some ((v, st'), tp)
    /\ do_cat ctx = Some (r, t)
    /\ never is_session_operation t
    /\ (v = 0 ->
        exists last, st_gluster_url st' = Some (with_path gluster_url_init last))
    /\ (existsb (fun r => bad_xlator r || bad_port r) rs = true ->
        r <> 0
        /\ never is_file_operation t
        /\ bytes_read t = 0%nat
        /\ sink t = []).
Proof.
  intros ctx rs.
  destruct (do_cat_borrowed a s d)
    as (v & st' & tp & r & t & Hparse & Hcat & Hs & Htext & Hv & H0).
  exists v, st', tp, r, t. split; [assumption|]. split; [assumption|].
  split; [assumption|]. split.
  - intros ->. destruct (H0 eq_refl) as (_ & last & _ & Hg & _).
    exists last. exact Hg.
  - intros Hbad. apply existsb_exists in Hbad as (r0 & Hin & Hbad).
    assert (Hstop : option_ok r0 = false).
    { apply orb_prop in Hbad as [Hx|Hp];
        [now apply bad_xlator_stops|now apply bad_port_stops]. }
    assert (Hv0 : v <> 0).
    { intros ->. destruct (H0 eq_refl) as (Hall & _). fold rs in Hall.
      rewrite (stops_somewhere r0 rs Hin Hstop) in Hall. discriminate Hall. }
    destruct (Hv Hv0) as (-> & ->). split; [assumption|].
    split; [now apply text_no_file_operation|].
    destruct (text_sink tp Htext). auto.
Qed.

(** X13.  A help or version request at which the loop stops: the text is
    printed and nothing else happens; [do_cat] returns 0 with a session of
    its own and -2 with the session of the caller. *)
Lemma info_request_status ctx pre r post :
  Getopt.getopt_long optstring long_options (argv ctx) = pre ++ r :: post ->
  forallb option_ok pre = true ->
  is_info_request r = true ->
  do_cat ctx
  = Some (match fs ctx with Some _ => -2 | None => 0 end,
          [if Ascii.eqb (Getopt.opt r) "v" then stdout_version else stdout_usage]).
Proof.
  intros Hrs Hpre Hr.
  assert (Hstop : option_ok r = false
                  /\ stop r = fun st =>
                       (goto_out (-2) st,
                        [if Ascii.eqb (Getopt.opt r) "v"
                         then stdout_version else stdout_usage])).
  { unfold is_info_request in Hr. unfold option_ok, stop, bad_xlator, bad_port,
      is_xlator_option, is_port_option.
    apply orb_prop in Hr as [Hr|Hr]; apply Ascii.eqb_eq in Hr; rewrite Hr;
      split; reflexivity. }
  destruct Hstop as [Hstop Hexit].
  rewrite (do_cat_parse_failed ctx (-2) (final_state pre (entry_state ctx))
             [if Ascii.eqb (Getopt.opt r) "v" then stdout_version else stdout_usage]).
  - unfold status_of. now destruct (fs ctx).
  - rewrite (parse_options_stopped _ _ _ pre r post Hrs Hpre Hstop). now rewrite Hexit.
  - now right.
Qed.

(** C7, where the code falls short.  A help or version request prints its
    text and nothing else happens; without a session of the caller
    [do_cat] returns 0, with one it returns the -2 of [parse_options]. *)
Theorem info_request_with_borrowed_session_returns_minus_two s d :
  do_cat {| argv := ["cat"; "--help"]; fs := Some s; options_debug := d |}
  = Some (-2, [stdout_usage])
  /\ do_cat {| argv := ["cat"; "--version"]; fs := Some s; options_debug := d |}
     = Some (-2, [stdout_version])
  /\ do_cat {| argv := ["gfcat"; "--help"]; fs := None; options_debug := d |}
     = Some (0, [stdout_usage])
  /\ do_cat {| argv := ["gfcat"; "--version"]; fs := None; options_debug := d |}
     = Some (0, [stdout_version]).
Proof. repeat split; reflexivity. Qed.

(** C8, where the code falls short.  With no argument at all the operand
    is reported missing.  With [-d] alone it is not: [argc - option_index]
    is 2, [-d] is taken for the operand, and with the session of the
    caller [glfs_open] is called on it; without one [-d] is refused as an
    identifier. *)
Theorem flag_alone_taken_as_operand s d :
  do_cat {| argv := ["cat"]; fs := Some s; options_debug := d |}
  = Some (-1, [stderr_error "missing operand";
               stderr_error "Try --help for more information."])
  /\ (exists st', parse_options ["cat"; "-d"] true init_state = Some ((0, st'), [])
                  /\ url st' = Some "-d")
  /\ (exists r t,
         do_cat {| argv := ["cat"; "-d"]; fs := Some s; options_debug := d |}
         = Some (r, call_glfs_open s "-d" :: t))
  /\ do_cat {| argv := ["gfcat"; "-d"]; fs := None; options_debug := d |}
     = Some (-1, [stderr_error "-d"; stderr_error "Try --help for more information."]).
Proof.
  split; [reflexivity|]. split; [eexists; split; reflexivity|].
  split; [|reflexivity].
  destruct (do_cat_borrowed ["cat"; "-d"] s d)
    as (v & st' & tp & r & t & Hparse & Hcat & _ & _ & _ & H0).
  assert (Hparse' : parse_options ["cat"; "-d"] true init_state
                    = Some ((0, set_gluster_url (set_url (set_debug init_state true) "-d")
                                  (with_path gluster_url_init "-d")), []))
    by reflexivity.
  rewrite Hparse' in Hparse. injection Hparse as <- <- <-.
  destruct (H0 eq_refl) as (_ & last & Hlast & _ & Hget).
  injection Hlast as <-.
  destruct (gluster_get_defined
              (set_gluster_url (set_url (set_debug init_state true) "-d")
                 (with_path gluster_url_init "-d"))
              (with_path gluster_url_init "-d") s "-d" eq_refl)
    as (r' & t' & Hget' & _).
  rewrite Hget' in Hget. injection Hget as <- <-.
  exists r', t'. exact Hcat.
Qed.

(** ** Identifiers *)

Lemma split_at_app c a b :
  Str.contains c a = false ->
  Str.split_at c (a ++ String c b)%string = Some (a, b).
Proof.
  induction a as [|x a IH]; cbn; intros H.
  - now rewrite Ascii.eqb_refl.
  - apply orb_false_elim in H as [Hx Ha]. now rewrite Hx, IH.
Qed.

Lemma contains_app c a b :
  Str.contains c (a ++ b)%string = Str.contains c a || Str.contains c b.
Proof.
  induction a as [|x a IH]; cbn; [reflexivity|]. now rewrite IH, orb_assoc.
Qed.

Lemma digits_contain c s :
  Str.is_digit c = false -> Str.all_digits s = true -> Str.contains c s = false.
Proof.
  intros Hc. induction s as [|x s IH]; cbn; intros H; [reflexivity|].
  apply andb_prop in H as [Hx Hs]. rewrite (IH Hs), orb_false_r.
  destruct (Ascii.eqb_spec x c) as [->|]; [congruence|reflexivity].
Qed.

Lemma strtoport_digits n : strtoport n <> 0 -> Str.all_digits n = true.
Proof.
  unfold strtoport. destruct (Str.all_digits n); [reflexivity|].
  cbn. congruence.
Qed.

Lemma app_assoc_string (a b c : string) : ((a ++ b) ++ c = a ++ b ++ c)%string.
Proof. induction a as [|x a IH]; cbn; [reflexivity|]. now rewrite IH. Qed.

(** The parts of a well-formed identifier are found again. *)
Lemma gluster_parse_url_identifier scheme h n vol p :
  valid_identifier scheme h n vol ->
  gluster_parse_url (identifier scheme h n vol p)
  = Some {| host := h; path := String "/" p; volume := vol; port := strtoport n |}.
Proof.
  intros (Hs & Hsc & Hh & Hhc & Hhs & Hn & Hv & Hvs).
  pose proof (strtoport_digits n Hn) as Hd.
  unfold gluster_parse_url, identifier.
  change ("://" ++ ?x)%string with (String ":" (String "/" (String "/" x))).
  rewrite split_at_app by assumption.
  change (h ++ ":" ++ n ++ "/" ++ vol ++ "/" ++ p)%string
    with (h ++ String ":" (n ++ String "/" (vol ++ String "/" p)))%string.
  replace (h ++ String ":" (n ++ String "/" (vol ++ String "/" p)))%string
    with ((h ++ String ":" n) ++ String "/" (vol ++ String "/" p))%string
    by (rewrite app_assoc_string; reflexivity).
  rewrite split_at_app.
  2:{ rewrite contains_app. cbn. rewrite Hhs. cbn.
      now apply digits_contain. }
  rewrite split_at_app by assumption.
  rewrite split_at_app by assumption.
  destruct (String.eqb_spec scheme ""); [contradiction|].
  destruct (String.eqb_spec vol ""); [contradiction|].
  destruct (String.eqb_spec h ""); [contradiction|].
  destruct (Z.eqb_spec (strtoport n) 0); [contradiction|].
  reflexivity.
Qed.

Lemma next_port_other p r : is_port_option r = false -> next_port p r = p.
Proof.
  unfold next_port. intros ->. now destruct (Ascii.eqb _ "d"), (is_xlator_option r).
Qed.

Lemma next_port_port p r :
  is_port_option r = true -> next_port p r = strtoport (optarg_text r).
Proof.
  unfold next_port, is_xlator_option, is_port_option. intros H. rewrite H.
  apply Ascii.eqb_eq in H. now rewrite H.
Qed.

Lemma final_port_none rs p : existsb is_port_option rs = false -> final_port rs p = p.
Proof.
  revert p. induction rs as [|r rs IH]; intros p H; [reflexivity|].
  cbn in H. apply orb_false_elim in H as [Hr Hrs].
  cbn. rewrite next_port_other by assumption. now apply IH.
Qed.

Lemma final_port_last pre r post p :
  is_port_option r = true ->
  existsb is_port_option post = false ->
  final_port (pre ++ r :: post) p = strtoport (optarg_text r).
Proof.
  intros Hr Hpost. unfold final_port. rewrite fold_left_app. cbn.
  rewrite next_port_port by assumption. now apply final_port_none.
Qed.

(** C3, as the code has it.  When the options are accepted and the
    operand is a well-formed identifier [scheme://host:port/volume/path],
    [parse_options] returns 0 and leaves a target with the host, the volume
    and the path of the identifier.  Its port is not the one of the
    identifier: it is the value of the last port option, and the default
    port when there is none. *)
Theorem identifier_parts_kept_port_from_options argv st scheme h n vol p :
  let rs := Getopt.getopt_long optstring long_options argv in
  valid_identifier scheme h n vol ->
  forallb option_ok rs = true ->
  2 <= Z.of_nat (length argv) - final_index rs 0 ->
  nth_error (Getopt.permuted optstring long_options argv)
            (Z.to_nat (Z.of_nat (length argv) - 1))
  = Some (identifier scheme h n vol p) ->
  exists st',
    parse_options argv false st = Some ((0, st'), [])
    /\ st_gluster_url st'
       = Some {| host := h; path := String "/" p; volume := vol;
                 port := final_port rs (uint16 GLUSTER_DEFAULT_PORT) |}
    /\ (existsb is_port_option rs = false ->
        final_port rs (uint16 GLUSTER_DEFAULT_PORT) = uint16 GLUSTER_DEFAULT_PORT)
    /\ (forall pre r post,
           rs = pre ++ r :: post ->
           is_port_option r = true ->
           existsb is_port_option post = false ->
           final_port rs (uint16 GLUSTER_DEFAULT_PORT) = strtoport (optarg_text r)).
Proof.
  intros rs Hvalid Hok Hargc Hlast.
  rewrite parse_options_accepted by assumption. fold rs.
  unfold parse_operand.
  destruct (Z.ltb_spec (Z.of_nat (length argv) - final_index rs 0) 2); [lia|].
  rewrite Hlast, (gluster_parse_url_identifier _ _ _ _ _ Hvalid).
  eexists. split; [reflexivity|]. split; [reflexivity|].
  split; [apply final_port_none|].
  intros pre r post -> Hr Hpost. now apply final_port_last.
Qed.

(** ** Order lemmas *)

Lemma preceded_by_never p q t : never q t -> preceded_by p q t.
Proof.
  intros Hn t1 e t2 -> Hq. unfold never in Hn. rewrite Forall_forall in Hn.
  rewrite Hn in Hq; [discriminate|]. apply in_elt.
Qed.

Lemma preceded_by_first p q e t : p e = true -> q e = false -> preceded_by p q (e :: t).
Proof.
  intros Hp Hq [|e1 t1] e0 t2 Heq Hq0; injection Heq as <- Heq.
  - congruence.
  - exists e. split; [now left|assumption].
Qed.

Lemma preceded_by_cons p q e t : q e = false -> preceded_by p q t -> preceded_by p q (e :: t).
Proof.
  intros Hq Ht [|e1 t1] e0 t2 Heq Hq0; injection Heq as <- Heq.
  - congruence.
  - destruct (Ht t1 e0 t2 Heq Hq0) as (e' & Hin & Hp).
    exists e'. split; [now right|assumption].
Qed.

Lemma followed_by_never p q t : never q t -> followed_by p q t.
Proof.
  intros Hn t1 e t2 -> Hq. unfold never in Hn. rewrite Forall_forall in Hn.
  rewrite Hn in Hq; [discriminate|]. apply in_elt.
Qed.

Lemma followed_by_cons p q e t :
  (q e = true -> exists e', In e' t /\ p e' = true) ->
  followed_by p q t -> followed_by p q (e :: t).
Proof.
  intros He Ht [|e1 t1] e0 t2 Heq Hq0; injection Heq as <- Heq.
  - subst t. auto.
  - exact (Ht t1 e0 t2 Heq Hq0).
Qed.

Lemma followed_by_end p q t1 t2 e' :
  In e' t2 -> p e' = true -> never q t2 -> followed_by p q (t1 ++ t2).
Proof.
  intros Hin Hp Hn. induction t1 as [|e t1 IH]; [now apply followed_by_never|].
  apply followed_by_cons; [|exact IH].
  intros _. exists e'. split; [apply in_or_app; now right|assumption].
Qed.

Lemma last_of_never p t : never p t -> last_of p t.
Proof.
  intros Hn t1 e t2 -> Hp. unfold never in Hn. rewrite Forall_forall in Hn.
  rewrite Hn in Hp; [discriminate|]. apply in_elt.
Qed.

Lemma last_of_end p t e : never p t -> last_of p (t ++ [e]).
Proof.
  intros Hn t1 e0 t2 Heq Hp.
  destruct t2 as [|e2 t2] using rev_ind; [reflexivity|].
  exfalso. clear IHt2.
  change (t1 ++ e0 :: t2 ++ [e2]) with (t1 ++ (e0 :: t2) ++ [e2]) in Heq.
  rewrite app_assoc in Heq. apply app_inj_tail in Heq as [-> _].
  unfold never in Hn. rewrite Forall_forall in Hn.
  rewrite Hn in Hp; [discriminate|]. apply in_elt.
Qed.

Lemma last_of_cons p e t : p e = false -> last_of p t -> last_of p (e :: t).
Proof.
  intros He Ht [|e1 t1] e0 t2 Heq Hp; injection Heq as <- Heq.
  - congruence.
  - exact (Ht t1 e0 t2 Heq Hp).
Qed.

(** ** More on [gluster_get] *)

Lemma at_out_shape st content :
  snd (at_out st content)
  = call_gluster_lock
      :: (if lock_contended E
          then [stderr_error (url_text st)]
          else snd (read_loop 0 content)
                 ++ (if fst (read_loop 0 content) =? -1
                     then [stderr_error "write error"]
                     else [])).
Proof.
  unfold at_out. destruct (lock_contended E); [reflexivity|].
  destruct (_ =? -1); cbn [snd]; [reflexivity|now rewrite app_nil_r].
Qed.

Lemma read_loop_prefix i rest :
  exists left, rest = sink (snd (read_loop i rest)) ++ left.
Proof.
  funelim (read_loop i rest).
  - exists rest. now destruct (read_fails E i).
  - destruct (read_fails E i); [now exists rest|]. cbv zeta.
    assert (Hrest : rest = (b :: bs) ++ skipn BUFSIZE rest)
      by (rewrite <- Hchunk; symmetry; apply firstn_skipn).
    destruct (Nat.ltb_spec (accepted i (b :: bs)) (length (b :: bs))) as [Hlt|Hge].
    + exists (skipn (accepted i (b :: bs)) (b :: bs) ++ skipn BUFSIZE rest).
      cbn [snd sink]. rewrite app_nil_r, app_assoc, firstn_skipn. exact Hrest.
    + destruct (read_loop (S i) (skipn BUFSIZE rest)) as [r t]. cbn [snd] in *.
      destruct H as [left Hleft]. exists left.
      cbn [sink]. rewrite firstn_all2 by assumption.
      rewrite <- app_assoc, <- Hleft. exact Hrest.
Qed.

Lemma read_loop_whole i rest :
  (0 < BUFSIZE)%nat ->
  fst (read_loop i rest) = 0 -> sink (snd (read_loop i rest)) = rest.
Proof.
  intros HB. funelim (read_loop i rest).
  - destruct (read_fails E i); [discriminate|]. intros _.
    destruct rest; [reflexivity|]. destruct BUFSIZE; [lia|discriminate].
  - destruct (read_fails E i); [discriminate|]. cbv zeta.
    destruct (Nat.ltb_spec (accepted i (b :: bs)) (length (b :: bs))) as [Hlt|Hge];
      [discriminate|].
    specialize (H HB).
    destruct (read_loop (S i) (skipn BUFSIZE rest)) as [r t]. cbn [fst snd] in *.
    intros Hr. cbn [sink]. rewrite firstn_all2 by assumption.
    rewrite (H Hr), <- Hchunk. apply firstn_skipn.
Qed.

Lemma sink_of_gluster_get s filename st content (m : list event) :
  only_text m ->
  sink (call_glfs_open s filename :: snd (at_out st content) ++ call_glfs_close :: m)
  = if lock_contended E then [] else sink (snd (read_loop 0 content)).
Proof.
  intros Hm. cbn [sink]. rewrite sink_app, at_out_shape. cbn [sink].
  destruct (text_sink m Hm) as [-> _]. rewrite app_nil_r.
  destruct (lock_contended E); [reflexivity|].
  rewrite sink_app. destruct (_ =? -1); cbn; apply app_nil_r.
Qed.

Lemma close_message_text g :
  only_text (if close_fails E
             then [stderr_error ("cannot close file " ++ path g)%string]
             else []).
Proof. destruct (close_fails E); repeat constructor. Qed.

(** X1.  Whatever fails, the reads of the file and the writes to standard
    output of [gluster_get] all come after the call that takes the lock
    and before the call that closes the file; there is none at all when
    the lock is refused or the file cannot be opened. *)
Theorem transfers_between_lock_and_close st g s filename :
  st_gluster_url st = Some g ->
  exists r t,
    gluster_get st s filename = Some (r, t)
    /\ preceded_by is_lock is_transfer t
    /\ followed_by is_close is_transfer t
    /\ (lock_contended E = true \/ files E filename = None -> never is_transfer t).
Proof.
  intros Hg. destruct (files E filename) as [content|] eqn:Hopen.
  - rewrite (gluster_get_opened st g s filename content) by assumption.
    do 2 eexists. split; [reflexivity|]. split; [|split].
    + apply preceded_by_cons; [reflexivity|]. rewrite at_out_shape.
      now apply preceded_by_first.
    + change (call_glfs_open s filename :: ?a ++ ?b)
        with ((call_glfs_open s filename :: a) ++ b).
      apply followed_by_end with (e' := call_glfs_close); [now left|reflexivity|].
      destruct (close_fails E); repeat constructor.
    + intros [Hlock|Hnone]; [|discriminate Hnone].
      rewrite at_out_shape, Hlock.
      destruct (close_fails E); repeat constructor.
  - rewrite gluster_get_not_opened by assumption.
    assert (Hn : never is_transfer
                   [call_glfs_open s filename; stderr_error (url_text st)])
      by repeat constructor.
    do 2 eexists. split; [reflexivity|].
    split; [now apply preceded_by_never|]. split; [now apply followed_by_never|auto].
Qed.

(** X2.  What [gluster_get] has written to standard output is always a
    beginning of the file, and it is the whole file whenever
    [gluster_get] returns 0 (with a buffer that is not empty). *)
Theorem output_is_prefix_and_whole_on_success st g s filename content :
  files E filename = Some content ->
  st_gluster_url st = Some g ->
  exists r t,
    gluster_get st s filename = Some (r, t)
    /\ (exists left, content = sink t ++ left)
    /\ ((0 < BUFSIZE)%nat -> r = 0 -> sink t = content).
Proof.
  intros Hopen Hg.
  rewrite (gluster_get_opened st g s filename content) by assumption.
  do 2 eexists. split; [reflexivity|].
  rewrite sink_of_gluster_get by apply close_message_text.
  split.
  - destruct (lock_contended E); [now exists content|]. apply read_loop_prefix.
  - intros HB Hr. unfold at_out in Hr.
    destruct (close_fails E); [discriminate Hr|].
    destruct (lock_contended E); [discriminate Hr|].
    destruct (Z.eqb_spec (fst (read_loop 0 content)) (-1)) as [|Hne];
      [discriminate Hr|].
    apply read_loop_whole; [assumption|].
    destruct (read_loop_status 0 content); [assumption|contradiction].
Qed.

Lemma errors_of_gluster_get st g s filename content :
  errors (call_glfs_open s filename :: snd (at_out st content)
            ++ call_glfs_close
            :: (if close_fails E
                then [stderr_error ("cannot close file " ++ path g)%string]
                else []))
  = (if lock_contended E then [url_text st]
     else if fst (read_loop 0 content) =? -1 then ["write error"] else [])
    ++ (if close_fails E then [("cannot close file " ++ path g)%string] else []).
Proof.
  cbn [errors]. rewrite errors_app, at_out_shape. cbn [errors]. f_equal.
  - destruct (lock_contended E); [reflexivity|].
    rewrite errors_app, (transfers_errors _ (read_loop_transfers 0 content)).
    now destruct (_ =? -1).
  - now destruct (close_fails E).
Qed.

(** [gluster_get] returns 0 exactly when it has written no message. *)
Lemma gluster_get_silent_iff_zero st g s filename :
  st_gluster_url st = Some g ->
  exists r t,
    gluster_get st s filename = Some (r, t)
    /\ (r = 0 \/ r = -1)
    /\ (r = 0 <-> errors t = []).
Proof.
  intros Hg. destruct (files E filename) as [content|] eqn:Hopen.
  - rewrite (gluster_get_opened st g s filename content) by assumption.
    do 2 eexists. split; [reflexivity|].
    rewrite errors_of_gluster_get. unfold at_out.
    destruct (lock_contended E); [|destruct (_ =? -1)];
      destruct (close_fails E); cbn;
      first [split; [now right|split; discriminate]
            |split; [now left|split; reflexivity]].
  - rewrite gluster_get_not_opened by assumption.
    do 2 eexists. split; [reflexivity|]. split; [now right|]. cbn. split; discriminate.
Qed.

(** ** More on [cat_without_context] *)

(** The return value and the trace of [cat_without_context], step by
    step. *)
Lemma cat_without_context_eq st g :
  st_gluster_url st = Some g ->
  cat_without_context st
  = match getfs E g with
    | getfs_failed None =>
        Some (-1, [call_gluster_getfs g; stderr_error (url_text st)])
    | getfs_failed (Some s) =>
        Some (-1, [call_gluster_getfs g; stderr_error (url_text st); call_glfs_fini s])
    | getfs_ok s =>
        if apply_options_fails E
        then Some (-1, [call_gluster_getfs g;
                        call_apply_xlator_options s (xlator_options st);
                        stderr_error "failed to apply translator options";
                        call_glfs_fini s])
        else if debug st && set_logging_fails E
        then Some (-1, [call_gluster_getfs g;
                        call_apply_xlator_options s (xlator_options st);
                        call_glfs_set_logging s;
                        stderr_error "failed to set logging level";
                        call_glfs_fini s])
        else
          match gluster_get st s (path g) with
          | Some (r, t) =>
              Some (if r =? -1 then -1 else 0,
                    call_gluster_getfs g
                      :: call_apply_xlator_options s (xlator_options st)
                      :: (if debug st then [call_glfs_set_logging s] else [])
                      ++ t ++ [call_glfs_fini s])
          | None => None
          end
    end.
Proof.
  intros Hg. unfold cat_without_context, gluster_getfs. rewrite Hg.
  destruct (getfs E g) as [s|[s|]]; [|reflexivity|reflexivity].
  cbn -[gluster_get]. unfold apply_xlator_options, glfs_set_logging.
  cbn -[gluster_get].
  destruct (apply_options_fails E); [reflexivity|]. cbn -[gluster_get].
  destruct (debug st); cbn -[gluster_get].
  - destruct (set_logging_fails E); [reflexivity|]. cbn -[gluster_get].
    destruct (gluster_get st s (path g)) as [[r t]|]; [|reflexivity].
    cbn. destruct (r =? -1); cbn; now rewrite app_nil_r.
  - destruct (gluster_get st s (path g)) as [[r t]|]; [|reflexivity].
    cbn. destruct (r =? -1); cbn; now rewrite app_nil_r.
Qed.

(** X3.  A failure of [gluster_get] or of [cat_without_context] is never
    silent and a success is: each returns 0 or -1, and 0 exactly when it
    has written no message to standard error. *)
Theorem failure_is_reported st g :
  st_gluster_url st = Some g ->
  (forall s filename,
      exists r t,
        gluster_get st s filename = Some (r, t)
        /\ (r = 0 \/ r = -1)
        /\ (r = 0 <-> errors t = []))
  /\ exists r t,
      cat_without_context st = Some (r, t)
      /\ (r = 0 \/ r = -1)
      /\ (r = 0 <-> errors t = []).
Proof.
  intros Hg. split; [intros s filename; now apply (gluster_get_silent_iff_zero st g)|].
  rewrite (cat_without_context_eq st g Hg).
  destruct (getfs E g) as [s|[s|]].
  - destruct (apply_options_fails E).
    { do 2 eexists. split; [reflexivity|]. split; [now right|split; discriminate]. }
    destruct (debug st && set_logging_fails E).
    { do 2 eexists. split; [reflexivity|]. split; [now right|split; discriminate]. }
    destruct (gluster_get_silent_iff_zero st g s (path g) Hg)
      as (r & t & -> & Hr & Hsilent).
    do 2 eexists. split; [reflexivity|].
    assert (Herr : errors (call_gluster_getfs g
                     :: call_apply_xlator_options s (xlator_options st)
                     :: (if debug st then [call_glfs_set_logging s] else [])
                     ++ t ++ [call_glfs_fini s]) = errors t).
    { cbn [errors]. rewrite !errors_app. cbn [errors]. rewrite app_nil_r.
      now destruct (debug st). }
    rewrite Herr. destruct Hr as [-> | ->]; cbn.
    + split; [now left|]. split; [intros _; now apply Hsilent|reflexivity].
    + split; [now right|]. split; [discriminate|]. intros He.
      apply Hsilent in He. discriminate He.
  - do 2 eexists. split; [reflexivity|]. split; [now right|split; discriminate].
  - do 2 eexists. split; [reflexivity|]. split; [now right|split; discriminate].
Qed.

Lemma last_of_single p e : last_of p [e].
Proof.
  intros [|e1 t1] e0 t2 Heq _; injection Heq as <- Heq; [now subst t2|].
  destruct t1; discriminate Heq.
Qed.

Lemma session_free p t :
  (forall e, p e = true -> is_session_operation e = true) ->
  never is_session_operation t -> never p t.
Proof.
  intros Hp. unfold never. apply Forall_impl. intros e He.
  destruct (p e) eqn:Hpe; [|reflexivity]. rewrite (Hp e Hpe) in He. discriminate He.
Qed.

(** The shape of every trace of [cat_without_context]. *)
Lemma cat_without_context_shape st g :
  st_gluster_url st = Some g ->
  exists r t,
    cat_without_context st = Some (r, t)
    /\ hd_error t = Some (call_gluster_getfs g)
    /\ count is_getfs t = 1%nat
    /\ preceded_by is_apply is_file_operation t
    /\ followed_by is_fini is_file_operation t
    /\ last_of is_fini t
    /\ (count is_apply t <= 1)%nat
    /\ Forall (fun e => is_apply e = true ->
                        exists s, e = call_apply_xlator_options s (xlator_options st)) t
    /\ (count is_set_logging t <= 1)%nat
    /\ (debug st = false -> never is_set_logging t)
    /\ (debug st = true -> preceded_by is_set_logging is_file_operation t).
Proof.
  intros Hg. rewrite (cat_without_context_eq st g Hg).
  assert (Hsmall : forall (r : Z) (t : list event),
             never is_file_operation t ->
             hd_error t = Some (call_gluster_getfs g) ->
             count is_getfs t = 1%nat ->
             last_of is_fini t ->
             (count is_apply t <= 1)%nat ->
             Forall (fun e => is_apply e = true ->
                        exists s, e = call_apply_xlator_options s (xlator_options st)) t ->
             (count is_set_logging t <= 1)%nat ->
             (debug st = false -> never is_set_logging t) ->
             exists r' t',
               Some (r, t) = Some (r', t')
               /\ hd_error t' = Some (call_gluster_getfs g)
               /\ count is_getfs t' = 1%nat
               /\ preceded_by is_apply is_file_operation t'
               /\ followed_by is_fini is_file_operation t'
               /\ last_of is_fini t'
               /\ (count is_apply t' <= 1)%nat
               /\ Forall (fun e => is_apply e = true ->
                        exists s, e = call_apply_xlator_options s (xlator_options st)) t'
               /\ (count is_set_logging t' <= 1)%nat
               /\ (debug st = false -> never is_set_logging t')
               /\ (debug st = true -> preceded_by is_set_logging is_file_operation t')).
  { intros r t Hfile. intros. exists r, t.
    repeat (split; [first [reflexivity|assumption
                          |now apply preceded_by_never
                          |now apply followed_by_never]|]).
    intros _. now apply preceded_by_never. }
  assert (Happly : forall s, is_apply (call_apply_xlator_options s (xlator_options st)) = true ->
                             exists s', call_apply_xlator_options s (xlator_options st)
                                        = call_apply_xlator_options s' (xlator_options st))
    by (intros s _; now exists s).
  destruct (getfs E g) as [s|[s|]].
  - destruct (apply_options_fails E).
    { apply Hsmall; try reflexivity; try (cbn; lia).
      - repeat constructor.
      - repeat (apply last_of_cons; [reflexivity|]). apply last_of_single.
      - repeat constructor; try discriminate. apply Happly.
      - intros _. repeat constructor. }
    destruct (debug st) eqn:Hdebug; cbn [andb].
    + destruct (set_logging_fails E).
      { apply Hsmall; try reflexivity; try (cbn; lia).
        - repeat constructor.
        - repeat (apply last_of_cons; [reflexivity|]). apply last_of_single.
        - repeat constructor; try discriminate. apply Happly. }
      destruct (gluster_get_defined st g s (path g) Hg) as (r & t & -> & _ & Hs & _).
      assert (Hs' : never is_session_operation (call_glfs_open s (path g) :: t))
        by (constructor; [reflexivity|assumption]).
      do 2 eexists. split; [reflexivity|]. split; [reflexivity|].
      cbn [app]. split.
      { unfold count. cbn. rewrite filter_app, length_app. cbn.
        fold (count is_getfs t). rewrite (never_count is_getfs t); [reflexivity|].
        apply session_free; [now intros []|assumption]. }
      split. { apply preceded_by_cons; [reflexivity|]. now apply preceded_by_first. }
      split.
      { change (?a :: ?b :: ?c :: ?d :: t ++ ?f) with ((a :: b :: c :: d :: t) ++ f).
        apply followed_by_end with (e' := call_glfs_fini s);
          [now left|reflexivity|repeat constructor]. }
      split.
      { do 3 (apply last_of_cons; [reflexivity|]).
        apply (last_of_end is_fini (call_glfs_open s (path g) :: t)).
        apply session_free; [now intros []|assumption]. }
      assert (Hnever : forall p, (forall e, p e = true -> is_session_operation e = true) ->
                                 p (call_glfs_fini s) = false ->
                                 never p ((call_glfs_open s (path g) :: t) ++ [call_glfs_fini s])).
      { intros p Hp Hf. apply never_app; [now apply session_free|].
        constructor; [assumption|constructor]. }
      split.
      { unfold count. cbn. fold (count is_apply (t ++ [call_glfs_fini s])).
        rewrite (never_count is_apply); [lia|].
        pose proof (Hnever is_apply ltac:(now intros []) eq_refl) as Hn.
        now inversion Hn. }
      split.
      { constructor; [discriminate|]. constructor; [apply Happly|].
        constructor; [discriminate|].
        pose proof (Hnever is_apply ltac:(now intros []) eq_refl) as Hn.
        unfold never in Hn. eapply Forall_impl; [|exact Hn].
        intros e He He'. congruence. }
      split.
      { unfold count. cbn. fold (count is_set_logging (t ++ [call_glfs_fini s])).
        rewrite (never_count is_set_logging); [lia|].
        pose proof (Hnever is_set_logging ltac:(now intros []) eq_refl) as Hn.
        now inversion Hn. }
      split; [discriminate|]. intros _.
      do 2 (apply preceded_by_cons; [reflexivity|]). now apply preceded_by_first.
    + destruct (gluster_get_defined st g s (path g) Hg) as (r & t & -> & _ & Hs & _).
      assert (Hs' : never is_session_operation (call_glfs_open s (path g) :: t))
        by (constructor; [reflexivity|assumption]).
      assert (Hnever : forall p, (forall e, p e = true -> is_session_operation e = true) ->
                                 p (call_glfs_fini s) = false ->
                                 never p ((call_glfs_open s (path g) :: t) ++ [call_glfs_fini s])).
      { intros p Hp Hf. apply never_app; [now apply session_free|].
        constructor; [assumption|constructor]. }
      do 2 eexists. split; [reflexivity|]. split; [reflexivity|].
      cbn [app]. split.
      { unfold count. cbn. rewrite filter_app, length_app. cbn.
        fold (count is_getfs t). rewrite (never_count is_getfs t); [reflexivity|].
        apply session_free; [now intros []|assumption]. }
      split. { apply preceded_by_cons; [reflexivity|]. now apply preceded_by_first. }
      split.
      { change (?a :: ?b :: ?c :: t ++ ?f) with ((a :: b :: c :: t) ++ f).
        apply followed_by_end with (e' := call_glfs_fini s);
          [now left|reflexivity|repeat constructor]. }
      split.
      { do 2 (apply last_of_cons; [reflexivity|]).
        apply (last_of_end is_fini (call_glfs_open s (path g) :: t)).
        apply session_free; [now intros []|assumption]. }
      split.
      { unfold count. cbn. fold (count is_apply (t ++ [call_glfs_fini s])).
        rewrite (never_count is_apply); [lia|].
        pose proof (Hnever is_apply ltac:(now intros []) eq_refl) as Hn.
        now inversion Hn. }
      split.
      { constructor; [discriminate|]. constructor; [apply Happly|].
        pose proof (Hnever is_apply ltac:(now intros []) eq_refl) as Hn.
        unfold never in Hn. eapply Forall_impl; [|exact Hn].
        intros e He He'. congruence. }
      split.
      { unfold count. cbn. fold (count is_set_logging (t ++ [call_glfs_fini s])).
        rewrite (never_count is_set_logging); [lia|].
        pose proof (Hnever is_set_logging ltac:(now intros []) eq_refl) as Hn.
        now inversion Hn. }
      split; [|discriminate]. intros _.
      constructor; [reflexivity|]. constructor; [reflexivity|].
      exact (Hnever is_set_logging ltac:(now intros []) eq_refl).
  - apply Hsmall; try reflexivity; try (cbn; lia).
    + repeat constructor.
    + repeat (apply last_of_cons; [reflexivity|]). apply last_of_single.
    + repeat constructor; discriminate.
    + intros _. repeat constructor.
  - apply Hsmall; try reflexivity; try (cbn; lia).
    + repeat constructor.
    + apply last_of_never. repeat constructor.
    + repeat constructor; discriminate.
    + intros _. repeat constructor.
Qed.

(** X4.  [cat_without_context] starts with the one call of
    [gluster_getfs]; every call on the file comes after the translator
    options were applied and before the session is torn down, and the
    teardown, when there is one, is the last thing that happens. *)
Theorem session_brackets_file_operations st g :
  st_gluster_url st = Some g ->
  exists r t,
    cat_without_context st = Some (r, t)
    /\ hd_error t = Some (call_gluster_getfs g)
    /\ count is_getfs t = 1%nat
    /\ preceded_by is_apply is_file_operation t
    /\ followed_by is_fini is_file_operation t
    /\ last_of is_fini t.
Proof.
  intros Hg.
  destruct (cat_without_context_shape st g Hg)
    as (r & t & Hcat & Hhd & Hgetfs & Hbefore & Hafter & Hlast & _).
  exists r, t. auto 10.
Qed.

(** ** What the options leave in the state *)

Lemma final_state_debug rs st :
  debug (final_state rs st) = debug st || debug_requested rs.
Proof.
  revert st. induction rs as [|r rs IH]; intros st; [now rewrite orb_false_r|].
  cbn. unfold final_state in IH. rewrite IH. unfold next_state.
  destruct (Ascii.eqb (Getopt.opt r) "d"); cbn.
  - now rewrite orb_true_r.
  - destruct (is_xlator_option r); [|reflexivity].
    now destruct (parse_xlator_option _).
Qed.

Lemma final_state_options rs st :
  xlator_options (final_state rs st) = xlator_options st ++ given_options rs.
Proof.
  revert st. induction rs as [|r rs IH]; intros st; [now rewrite app_nil_r|].
  cbn. unfold final_state in IH. rewrite IH. unfold next_state, is_xlator_option.
  destruct (Ascii.eqb_spec (Getopt.opt r) "d") as [Hd|Hd].
  - rewrite Hd. reflexivity.
  - destruct (Ascii.eqb (Getopt.opt r) "o"); [|reflexivity].
    destruct (parse_xlator_option _); [|reflexivity].
    cbn. now rewrite <- app_assoc.
Qed.

(** With a session of its own: either [parse_options] did not return 0
    and [do_cat] stops after its messages, or [do_cat] is
    [cat_without_context] on the state that the options left. *)
Lemma do_cat_standalone a d :
  let ctx := {| argv := a; fs := None; options_debug := d |} in
  let rs := Getopt.getopt_long optstring long_options a in
  (exists v tp,
      (v = -1 \/ v = -2) /\ only_text tp
      /\ do_cat ctx = Some (if v =? -2 then 0 else v, tp))
  \/ (exists st' g,
         st_gluster_url st' = Some g
         /\ debug st' = d || debug_requested rs
         /\ xlator_options st' = given_options rs
         /\ do_cat ctx = cat_without_context st').
Proof.
  intros ctx rs.
  destruct (parse_options_defined a false (set_debug init_state d))
    as (v & st' & tp & Hparse & Htext & [-> |Hv] & H0).
  - right. destruct (H0 eq_refl) as (_ & -> & _ & Hop).
    destruct (operand_taken_target _ _ _ _ _ Hop) as (g & Hg).
    destruct Hop as (last & _ & _ & Hopts & Hdebug & _).
    exists st', g. split; [assumption|].
    split; [now rewrite Hdebug, final_state_debug|].
    split; [now rewrite Hopts, final_state_options|].
    exact (do_cat_parse_ok ctx st' g Hparse Hg).
  - left. exists v, tp. split; [assumption|]. split; [assumption|].
    exact (do_cat_parse_failed ctx v st' tp Hparse Hv).
Qed.

(** X5.  With a session of its own, [do_cat] sets the logging at most
    once; it never does when neither the caller's context nor [-d] or
    [--debug] asks for it, and when one of them does, the logging is set
    before any call on the file. *)
Theorem debug_logging_when_asked a d :
  let ctx := {| argv := a; fs := None; options_debug := d |} in
  let rs := Getopt.getopt_long optstring long_options a in
  exists r t,
    do_cat ctx = Some (r, t)
    /\ (count is_set_logging t <= 1)%nat
    /\ (d || debug_requested rs = false -> never is_set_logging t)
    /\ (d || debug_requested rs = true -> preceded_by is_set_logging is_file_operation t).
Proof.
  intros ctx rs.
  destruct (do_cat_standalone a d)
    as [(v & tp & _ & Htext & Hcat)|(st' & g & Hg & Hdebug & _ & Hcat)].
  - do 2 eexists. split; [exact Hcat|].
    assert (Hn : never is_set_logging tp) by (apply text_never; [now intros []|assumption]).
    split; [rewrite (never_count _ _ Hn); lia|]. split; [auto|]. intros _.
    apply preceded_by_never. now apply text_no_file_operation.
  - fold ctx in Hcat. fold rs in Hdebug. rewrite Hcat, <- Hdebug.
    destruct (cat_without_context_shape st' g Hg)
      as (r & t & -> & _ & _ & _ & _ & _ & _ & _ & Hcount & Hoff & Hon).
    exists r, t. auto.
Qed.

(** X6.  With a session of its own, [do_cat] applies translator options
    at most once, and what it applies is the list of the well-formed
    [-o]/[--xlator-option] values of the command line, in the order they
    were given, duplicates included; this happens before any call on the
    file. *)
Theorem translator_options_applied_in_order a d :
  let ctx := {| argv := a; fs := None; options_debug := d |} in
  let rs := Getopt.getopt_long optstring long_options a in
  exists r t,
    do_cat ctx = Some (r, t)
    /\ (count is_apply t <= 1)%nat
    /\ (forall e, In e t -> is_apply e = true ->
                  exists s, e = call_apply_xlator_options s (given_options rs))
    /\ preceded_by is_apply is_file_operation t.
Proof.
  intros ctx rs.
  destruct (do_cat_standalone a d)
    as [(v & tp & _ & Htext & Hcat)|(st' & g & Hg & _ & Hopts & Hcat)].
  - do 2 eexists. split; [exact Hcat|].
    assert (Hn : never is_apply tp) by (apply text_never; [now intros []|assumption]).
    split; [rewrite (never_count _ _ Hn); lia|]. split.
    + intros e Hin He. unfold never in Hn. rewrite Forall_forall in Hn.
      rewrite (Hn e Hin) in He. discriminate He.
    + apply preceded_by_never. now apply text_no_file_operation.
  - fold ctx in Hcat. fold rs in Hopts. rewrite Hcat, <- Hopts.
    destruct (cat_without_context_shape st' g Hg)
      as (r & t & -> & _ & _ & Hbefore & _ & _ & Hcount & Hall & _).
    exists r, t. split; [reflexivity|]. split; [assumption|].
    split; [|assumption]. rewrite Forall_forall in Hall. exact Hall.
Qed.

(** ** More on [parse_options] *)

(** X7.  [parse_options] returns 0 exactly when the loop accepts every
    option, [argc - option_index] is at least 2 and, without a
    connection, the last element of [argv] is an identifier that
    [gluster_parse_url] accepts. *)
Theorem parse_options_returns_zero_iff argv hc st :
  let rs := Getopt.getopt_long optstring long_options argv in
  exists v st' t,
    parse_options argv hc st = Some ((v, st'), t)
    /\ (v = 0 <->
        forallb option_ok rs = true
        /\ 2 <= Z.of_nat (length argv) - final_index rs 0
        /\ (hc = false ->
            exists last g,
              nth_error (Getopt.permuted optstring long_options argv)
                        (Z.to_nat (Z.of_nat (length argv) - 1)) = Some last
              /\ gluster_parse_url last = Some g)).
Proof.
  intros rs.
  destruct (parse_options_defined argv hc st)
    as (v & st' & t & Hparse & _ & Hv & H0).
  exists v, st', t. split; [assumption|]. split.
  - intros Hzero. destruct (H0 Hzero) as (Hall & _ & Hargc & last & Hlast & _ & _ & _ & Hop).
    split; [assumption|]. split; [assumption|]. intros ->.
    destruct Hop as (g & Hg & _). now exists last, g.
  - intros (Hall & Hargc & Hid). fold rs in Hparse.
    rewrite parse_options_accepted in Hparse by assumption. fold rs in Hparse.
    unfold parse_operand in Hparse.
    destruct (Z.ltb_spec (Z.of_nat (length argv) - final_index rs 0) 2); [lia|].
    destruct (nth_error _ _) as [last|]; [|discriminate Hparse].
    destruct hc; [now injection Hparse as <- _ _|].
    destruct (Hid eq_refl) as (last' & g & Hlast & Hg). injection Hlast as <-.
    rewrite Hg in Hparse. now injection Hparse as <- _ _.
Qed.

(** X8.  When the loop accepts every option, whether the operand is
    reported missing depends on [argc] and on the index that [getopt_long]
    stored for the last long option, not on the operands: below 2 the
    message is written and -1 returned even with an operand on the command
    line; from 2 on the last element of [argv], whatever it is, becomes
    the operand. *)
Theorem missing_operand_by_last_long_option argv hc st :
  let rs := Getopt.getopt_long optstring long_options argv in
  let argc := Z.of_nat (length argv) in
  forallb option_ok rs = true ->
  (argc - final_index rs 0 < 2 ->
   parse_options argv hc st
   = Some ((-1, final_state rs st),
           [stderr_error "missing operand";
            stderr_error "Try --help for more information."]))
  /\ (2 <= argc - final_index rs 0 ->
      exists v st' t last,
        parse_options argv hc st = Some ((v, st'), t)
        /\ nth_error (Getopt.permuted optstring long_options argv)
                     (Z.to_nat (argc - 1)) = Some last
        /\ url st' = Some last).
Proof.
  intros rs argc Hall. rewrite parse_options_accepted by assumption. fold rs.
  unfold parse_operand. fold argc. split; intros Hargc.
  - destruct (Z.ltb_spec (argc - final_index rs 0) 2); [reflexivity|lia].
  - destruct (Z.ltb_spec (argc - final_index rs 0) 2); [lia|].
    destruct (nth_error _ _) as [last|] eqn:Hlast.
    + destruct hc; [do 4 eexists; split; [reflexivity|split; reflexivity]|].
      destruct (gluster_parse_url last);
        do 4 eexists; (split; [reflexivity|split; reflexivity]).
    + apply nth_error_None in Hlast. rewrite permuted_length in Hlast.
      pose proof (final_index_nonneg rs 0 ltac:(lia)). fold argc in Hlast. lia.
Qed.

(** X9.  Nothing on the command line after the first option at which the
    loop stops has any effect: two command lines that agree up to that
    option make [parse_options] return the same value, state and
    messages. *)
Theorem options_after_stop_ignored argv argv' hc st pre r post post' :
  Getopt.getopt_long optstring long_options argv = pre ++ r :: post ->
  Getopt.getopt_long optstring long_options argv' = pre ++ r :: post' ->
  forallb option_ok pre = true ->
  option_ok r = false ->
  parse_options argv hc st = parse_options argv' hc st.
Proof.
  intros Hrs Hrs' Hpre Hr.
  rewrite (parse_options_stopped argv hc st pre r post Hrs Hpre Hr).
  now rewrite (parse_options_stopped argv' hc st pre r post' Hrs' Hpre Hr).
Qed.


(** ** More on [do_cat] *)

(** X11.  [do_cat] always returns, never following a [NULL] target and
    never reading outside [argv], and its status is 0 or -1; the only
    other value, -2, comes out with the session of the caller alone. *)
Theorem do_cat_status ctx :
  exists r t,
    do_cat ctx = Some (r, t)
    /\ (r = 0 \/ r = -1 \/ (r = -2 /\ fs ctx <> None)).
Proof.
  destruct (parse_options_defined (argv ctx) (has_connection ctx) (entry_state ctx))
    as (v & st' & tp & Hparse & _ & [-> |Hv] & H0).
  - destruct (H0 eq_refl) as (_ & -> & _ & Hop).
    destruct (operand_taken_target _ _ _ _ _ Hop) as (g & Hg).
    rewrite (do_cat_parse_ok ctx st' g Hparse Hg).
    destruct (fs ctx) as [s|].
    + destruct (gluster_get_defined st' g s (path g) Hg) as (r & t & -> & Hr & _).
      do 2 eexists. split; [reflexivity|tauto].
    + destruct (cat_without_context_defined st' g Hg) as (r & t & -> & Hr & _).
      do 2 eexists. split; [reflexivity|tauto].
  - rewrite (do_cat_parse_failed ctx v st' tp Hparse Hv).
    do 2 eexists. split; [reflexivity|]. unfold status_of.
    destruct (fs ctx); destruct Hv as [-> | ->]; cbn; auto.
    right. right. split; [reflexivity|discriminate].
Qed.

Lemma gluster_get_no_stdout_text st g s filename :
  st_gluster_url st = Some g ->
  exists r t, gluster_get st s filename = Some (r, t) /\ never is_stdout_text t.
Proof.
  intros Hg. destruct (files E filename) as [content|] eqn:Hopen.
  - rewrite (gluster_get_opened st g s filename content) by assumption.
    do 2 eexists. split; [reflexivity|].
    constructor; [reflexivity|]. apply never_app.
    + rewrite at_out_shape. constructor; [reflexivity|].
      destruct (lock_contended E); [repeat constructor|].
      apply never_app.
      * apply transfers_never; [now intros []|apply read_loop_transfers].
      * destruct (_ =? -1); repeat constructor.
    + destruct (close_fails E); repeat constructor.
  - rewrite gluster_get_not_opened by assumption.
    do 2 eexists. split; [reflexivity|repeat constructor].
Qed.

Lemma cat_without_context_no_stdout_text st g :
  st_gluster_url st = Some g ->
  exists r t, cat_without_context st = Some (r, t) /\ never is_stdout_text t.
Proof.
  intros Hg. rewrite (cat_without_context_eq st g Hg).
  destruct (getfs E g) as [s|[s|]];
    try (do 2 eexists; split; [reflexivity|repeat constructor]).
  destruct (apply_options_fails E);
    [do 2 eexists; split; [reflexivity|repeat constructor]|].
  destruct (debug st && set_logging_fails E);
    [do 2 eexists; split; [reflexivity|repeat constructor]|].
  destruct (gluster_get_no_stdout_text st g s (path g) Hg) as (r & t & -> & Hn).
  do 2 eexists. split; [reflexivity|].
  do 2 (constructor; [reflexivity|]). apply never_app.
  - destruct (debug st); repeat constructor.
  - apply never_app; [assumption|repeat constructor].
Qed.

(** What [parse_options] prints on standard output: the usage or the
    version text, alone, when it returns -2, and nothing otherwise. *)
Lemma parse_options_stdout_text argv hc st :
  exists v st' t,
    parse_options argv hc st = Some ((v, st'), t)
    /\ ((v = -2 /\ (t = [stdout_usage] \/ t = [stdout_version]))
        \/ ((v = 0 /\ t = [] \/ v = -1) /\ never is_stdout_text t)).
Proof.
  destruct (first_stop (Getopt.getopt_long optstring long_options argv))
    as [Hall|(pre & r & post & Hrs & Hpre & Hr)].
  - rewrite parse_options_accepted by assumption. unfold parse_operand.
    destruct (Z.ltb_spec
                (Z.of_nat (length argv)
                 - final_index (Getopt.getopt_long optstring long_options argv) 0) 2)
      as [Hlt|Hge];
      [do 3 eexists; split; [reflexivity|right; split; [now right|repeat constructor]]|].
    destruct (nth_error _ _) as [last|] eqn:Hlast.
    + destruct hc;
        [do 3 eexists; split; [reflexivity|right; split; [now left|constructor]]|].
      destruct (gluster_parse_url last).
      * do 3 eexists. split; [reflexivity|]. right. split; [now left|constructor].
      * do 3 eexists. split; [reflexivity|]. right. split; [now right|repeat constructor].
    + apply nth_error_None in Hlast. rewrite permuted_length in Hlast.
      pose proof (final_index_nonneg
                    (Getopt.getopt_long optstring long_options argv) 0 ltac:(lia)).
      lia.
  - rewrite (parse_options_stopped argv hc st pre r post Hrs Hpre Hr).
    unfold stop.
    destruct (is_xlator_option r);
      [do 3 eexists; split; [reflexivity|right; split; [now right|repeat constructor]]|].
    destruct (is_port_option r);
      [do 3 eexists; split; [reflexivity|right; split; [now right|repeat constructor]]|].
    destruct (Ascii.eqb _ "v");
      [do 3 eexists; split; [reflexivity|left; auto]|].
    destruct (Ascii.eqb _ "x");
      [do 3 eexists; split; [reflexivity|left; auto]|].
    do 3 eexists. split; [reflexivity|]. right. split; [now right|repeat constructor].
Qed.

(** X12.  The usage and version texts never get mixed with anything else:
    when [do_cat] prints one of them it is the only thing that happens,
    with status 0, or -2 with the session of the caller; in every other
    run nothing but the bytes of the file goes to standard output. *)
Theorem usage_text_never_mixed ctx :
  exists r t,
    do_cat ctx = Some (r, t)
    /\ (never is_stdout_text t
        \/ ((t = [stdout_usage] \/ t = [stdout_version])
            /\ r = match fs ctx with Some _ => -2 | None => 0 end)).
Proof.
  destruct (parse_options_stdout_text (argv ctx) (has_connection ctx) (entry_state ctx))
    as (v & st' & tp & Hparse & [(-> & Htext)|([(-> & ->)| ->] & Hnever)]).
  - rewrite (do_cat_parse_failed ctx (-2) st' tp Hparse) by now right.
    do 2 eexists. split; [reflexivity|]. right. split; [assumption|].
    unfold status_of. now destruct (fs ctx).
  - destruct (parse_options_defined (argv ctx) (has_connection ctx) (entry_state ctx))
      as (v & st'' & tp & Hparse' & _ & _ & H0).
    rewrite Hparse in Hparse'. injection Hparse' as <- <- <-.
    destruct (H0 eq_refl) as (_ & _ & _ & Hop).
    destruct (operand_taken_target _ _ _ _ _ Hop) as (g & Hg).
    rewrite (do_cat_parse_ok ctx st' g Hparse Hg).
    destruct (fs ctx) as [s|].
    + destruct (gluster_get_no_stdout_text st' g s (path g) Hg) as (r & t & -> & Hn).
      do 2 eexists. split; [reflexivity|now left].
    + destruct (cat_without_context_no_stdout_text st' g Hg) as (r & t & -> & Hn).
      do 2 eexists. split; [reflexivity|now left].
  - rewrite (do_cat_parse_failed ctx (-1) st' tp Hparse) by now left.
    do 2 eexists. split; [reflexivity|now left].
Qed.

End Cat.

(** ** The theorems at work on the sample volume *)

Lemma lock_failure_reads_nothing_witness :
  (files (sample true false) "/path" = Some digits
   /\ st_gluster_url sample_state = Some sample_target
   /\ lock_contended (sample true false) = true)
  /\ exists t,
      gluster_get 4 (sample true false) sample_state 1%nat "/path" = Some (-1, t)
      /\ never is_read t
      /\ bytes_read t = 0%nat
      /\ chunks t = []
      /\ sink t = [].
Proof.
  split; [repeat split|].
  apply (lock_failure_reads_nothing 4 (sample true false) sample_state sample_target
           1%nat "/path" digits); reflexivity.
Defined.

Lemma streaming_round_trip_witness :
  exists r t,
    gluster_get 4 (sample false false) sample_state 1%nat "/path" = Some (r, t)
    /\ r = 0
    /\ length (sink t) = 10%nat
    /\ sink t = digits
    /\ concat (chunks t) = digits
    /\ fixed_size 4 (chunks t)
    /\ bytes_read t = 10%nat.
Proof.
  apply (streaming_round_trip 4 (sample false false) sample_state sample_target
           1%nat "/path" digits); try reflexivity.
  - lia.
Defined.

Lemma close_attempted_and_first_error_kept_witness :
  (files (sample true true) "/path" = Some digits
   /\ st_gluster_url sample_state = Some sample_target)
  /\ exists r t,
      gluster_get 4 (sample true true) sample_state 1%nat "/path" = Some (r, t)
      /\ count is_close t = 1%nat
      /\ r = -1
      /\ hd_error (errors t) = Some "glfs://host/vol/path".
Proof.
  split; [split; reflexivity|].
  destruct (close_attempted_and_first_error_kept 4 (sample true true) sample_state
              sample_target 1%nat "/path" digits eq_refl eq_refl)
    as (r & t & Hget & Hclose & Hearlier & _).
  exists r, t. destruct (Hearlier eq_refl) as [Hr Hfirst]. auto.
Defined.

Lemma close_once_when_opened_fini_once_when_session_witness :
  st_gluster_url sample_state = Some sample_target
  /\ (forall s filename,
         exists r t,
           gluster_get 4 (sample false false) sample_state s filename = Some (r, t)
           /\ count is_close t
              = match files (sample false false) filename with
                | Some _ => 1
                | None => 0
                end%nat)
  /\ exists r t,
      cat_without_context 4 (sample false false) sample_state = Some (r, t)
      /\ count is_fini t = 1%nat
      /\ (count is_file_operation t <> 0%nat -> count is_fini t = 1%nat)
      /\ (count is_close t <= 1)%nat.
Proof.
  split; [reflexivity|].
  apply (close_once_when_opened_fini_once_when_session 4 (sample false false)
           sample_state sample_target).
  reflexivity.
Defined.

(** [glfs_close] is not called exactly once on every run: when the file
    cannot be opened it is not called at all. *)
Lemma close_not_called_when_open_fails :
  gluster_get 4 (sample false false) sample_state 1%nat "/missing"
  = Some (-1, [call_glfs_open 1%nat "/missing"; stderr_error "glfs://host/vol/path"])
  /\ count is_close [call_glfs_open 1%nat "/missing"; stderr_error "glfs://host/vol/path"]
     <> 1%nat.
Proof. split; [reflexivity|discriminate]. Qed.

Lemma identifier_parts_kept_port_from_options_witness :
  valid_identifier "glfs" "host" "8080" "vol"
  /\ exists st',
      parse_options 24007 ["gfcat"; "-p"; "9"; "glfs://host:8080/vol/path"]
                    false init_state
      = Some ((0, st'), [])
      /\ st_gluster_url st'
         = Some {| host := "host"; path := "/path"; volume := "vol"; port := 9 |}.
Proof.
  assert (Hvalid : valid_identifier "glfs" "host" "8080" "vol")
    by (repeat split; discriminate).
  split; [exact Hvalid|].
  destruct (identifier_parts_kept_port_from_options 24007
              ["gfcat"; "-p"; "9"; "glfs://host:8080/vol/path"] init_state
              "glfs" "host" "8080" "vol" "path" Hvalid eq_refl ltac:(discriminate) eq_refl)
    as (st' & Hparse & Htarget & _).
  exists st'. split; [exact Hparse|exact Htarget].
Defined.

(** The port written in the identifier is not kept: the target gets the
    default port, or the port of the options. *)
Lemma port_of_identifier_not_kept :
  (exists st',
      parse_options 24007 ["gfcat"; "glfs://host:8080/vol/path"] false init_state
      = Some ((0, st'), [])
      /\ st_gluster_url st'
         = Some {| host := "host"; path := "/path"; volume := "vol"; port := 24007 |}
      /\ option_map port (st_gluster_url st') <> Some 8080)
  /\ (exists st',
         parse_options 24007 ["gfcat"; "-p"; "9"; "glfs://host:8080/vol/path"]
                       false init_state
         = Some ((0, st'), [])
         /\ option_map port (st_gluster_url st') = Some 9
         /\ option_map port (st_gluster_url st') <> Some 8080).
Proof.
  split; eexists; (split; [reflexivity|]); split; try reflexivity; discriminate.
Qed.

Lemma invalid_port_aborts_before_connection_witness :
  let ctx := {| argv := ["gfcat"; "-d"; "--port"; "70000"; "glfs://host/vol/path"];
                fs := None; options_debug := false |} in
  invalid_port "70000"
  /\ (exists r t,
         do_cat 24007 4 (sample false false) ctx = Some (r, t)
         /\ only_text t
         /\ never is_getfs t
         /\ never is_session_operation t
         /\ never is_file_operation t)
  /\ do_cat 24007 4 (sample false false) ctx = Some (-1, []).
Proof.
  intros ctx.
  assert (Hinvalid : invalid_port "70000") by (right; right; right; reflexivity).
  split; [exact Hinvalid|].
  destruct (invalid_port_aborts_before_connection 24007 4 (sample false false) ctx
              {| Getopt.opt := "p"; Getopt.optarg := Some "70000";
                 Getopt.longind := Some 2%nat |}
              "70000" ltac:(right; left; reflexivity) eq_refl eq_refl Hinvalid)
    as (_ & Hcat & Hreached).
  split; [exact Hcat|].
  apply (Hreached [Getopt.short "d" None] []); reflexivity.
Defined.



(** A file that is opened and locked does not always reach the output
    whole: when the second write takes one byte of four, five of the ten
    bytes are written and [gluster_get] returns -1. *)
Lemma short_write_cuts_output :
  files sample_short_write "/path" = Some digits
  /\ lock_contended sample_short_write = false
  /\ exists t,
      gluster_get 4 sample_short_write sample_state 1%nat "/path" = Some (-1, t)
      /\ sink t = list_byte_of_string "01234"
      /\ length (sink t) = 5%nat
      /\ length digits = 10%nat.
Proof. split; [reflexivity|]. split; [reflexivity|]. eexists. repeat split. Qed.

(** An invalid port does not always make the parsing fail: after
    [--help] the port is not looked at, [parse_options] returns -2 and
    [do_cat] returns 0. *)
Lemma invalid_port_after_help_not_reported :
  let a := ["gfcat"; "--help"; "-p"; "0"; "glfs://host/vol/path"] in
  In (Getopt.short "p" (Some "0")) (Getopt.getopt_long optstring long_options a)
  /\ strtoport "0" = 0
  /\ parse_options 24007 a false init_state = Some ((-2, init_state), [stdout_usage])
  /\ do_cat 24007 4 (sample false false)
            {| argv := a; fs := None; options_debug := false |}
     = Some (0, [stdout_usage]).
Proof. intros a. split; [right; left; reflexivity|]. repeat split. Qed.

(** ** Two runs from end to end *)

(** The ten digits of [/path] reach standard output and [do_cat] returns 0:
    one session, one open, one close, one teardown. *)
Example read_from_end_to_end :
  exists t,
    do_cat 24007 4 (sample false false)
           {| argv := ["gfcat"; "glfs://host/vol/path"]; fs := None;
              options_debug := false |}
    = Some (0, t)
    /\ sink t = digits
    /\ chunks t = [list_byte_of_string "0123"; list_byte_of_string "4567";
                   list_byte_of_string "89"]
    /\ count is_getfs t = 1%nat
    /\ count is_close t = 1%nat
    /\ count is_fini t = 1%nat.
Proof. eexists. repeat split. Qed.

(** With the lock held by someone else nothing reaches standard output and
    [do_cat] returns -1; the file is closed and the session torn down. *)
Example locked_from_end_to_end :
  exists t,
    do_cat 24007 4 (sample true false)
           {| argv := ["gfcat"; "glfs://host/vol/path"]; fs := None;
              options_debug := false |}
    = Some (-1, t)
    /\ sink t = []
    /\ bytes_read t = 0%nat
    /\ count is_close t = 1%nat
    /\ count is_fini t = 1%nat.
Proof. eexists. repeat split. Qed.

(** ** More runs on the sample volume *)

Lemma transfers_between_lock_and_close_witness :
  st_gluster_url sample_state = Some sample_target
  /\ exists r t,
      gluster_get 4 (sample false false) sample_state 1%nat "/path" = Some (r, t)
      /\ preceded_by is_lock is_transfer t
      /\ followed_by is_close is_transfer t
      /\ (lock_contended (sample false false) = true
          \/ files (sample false false) "/path" = None -> never is_transfer t).
Proof.
  split; [reflexivity|].
  apply (transfers_between_lock_and_close 4 (sample false false) sample_state
           sample_target 1%nat "/path").
  reflexivity.
Defined.

Lemma output_is_prefix_and_whole_on_success_witness :
  (files sample_short_write "/path" = Some digits
   /\ st_gluster_url sample_state = Some sample_target)
  /\ exists r t,
      gluster_get 4 sample_short_write sample_state 1%nat "/path" = Some (r, t)
      /\ (exists left, digits = sink t ++ left)
      /\ ((0 < 4)%nat -> r = 0 -> sink t = digits).
Proof.
  split; [split; reflexivity|].
  apply (output_is_prefix_and_whole_on_success 4 sample_short_write sample_state
           sample_target 1%nat "/path" digits); reflexivity.
Defined.

Lemma failure_is_reported_witness :
  st_gluster_url sample_state = Some sample_target
  /\ (forall s filename,
         exists r t,
           gluster_get 4 sample_read_failure sample_state s filename = Some (r, t)
           /\ (r = 0 \/ r = -1)
           /\ (r = 0 <-> errors t = []))
  /\ exists r t,
      cat_without_context 4 sample_read_failure sample_state = Some (r, t)
      /\ (r = 0 \/ r = -1)
      /\ (r = 0 <-> errors t = []).
Proof.
  split; [reflexivity|].
  apply (failure_is_reported 4 sample_read_failure sample_state sample_target).
  reflexivity.
Defined.

Lemma session_brackets_file_operations_witness :
  st_gluster_url sample_state = Some sample_target
  /\ exists r t,
      cat_without_context 4 (sample false true) sample_state = Some (r, t)
      /\ hd_error t = Some (call_gluster_getfs sample_target)
      /\ count is_getfs t = 1%nat
      /\ preceded_by is_apply is_file_operation t
      /\ followed_by is_fini is_file_operation t
      /\ last_of is_fini t.
Proof.
  split; [reflexivity|].
  apply (session_brackets_file_operations 4 (sample false true) sample_state
           sample_target).
  reflexivity.
Defined.

(** The operand is there, and yet it is reported missing: the index of
    [--xlator-option] in the table is 4 and [argc] is 4. *)
Lemma missing_operand_by_last_long_option_witness :
  parse_options 24007
    ["gfcat"; "--xlator-option"; "a.b=c"; "glfs://host/vol/path"] false init_state
  = Some ((-1, set_xlator_options init_state [{| key := "a.b"; value := "c" |}]),
          [stderr_error "missing operand";
           stderr_error "Try --help for more information."]).
Proof.
  destruct (missing_operand_by_last_long_option 24007
              ["gfcat"; "--xlator-option"; "a.b=c"; "glfs://host/vol/path"]
              false init_state eq_refl) as [Hmissing _].
  apply Hmissing. reflexivity.
Defined.

Lemma options_after_stop_ignored_witness :
  parse_options 24007 ["gfcat"; "--help"; "-p"; "0"; "-o"; "nothing"] false init_state
  = parse_options 24007 ["gfcat"; "--help"] false init_state.
Proof.
  apply (options_after_stop_ignored 24007
           ["gfcat"; "--help"; "-p"; "0"; "-o"; "nothing"] ["gfcat"; "--help"]
           false init_state []
           {| Getopt.opt := "x"; Getopt.optarg := None; Getopt.longind := Some 1%nat |}
           [Getopt.short "p" (Some "0"); Getopt.short "o" (Some "nothing")] []);
    reflexivity.
Defined.


Lemma info_request_status_witness :
  do_cat 24007 4 (sample false false)
         {| argv := ["cat"; "-d"; "--version"; "/path"]; fs := Some 1%nat;
            options_debug := false |}
  = Some (-2, [stdout_version]).
Proof.
  apply (info_request_status 24007 4 (sample false false)
           {| argv := ["cat"; "-d"; "--version"; "/path"]; fs := Some 1%nat;
              options_debug := false |}
           [Getopt.short "d" None]
           {| Getopt.opt := "v"; Getopt.optarg := None; Getopt.longind := Some 3%nat |}
           []);
    reflexivity.
Defined.
